(** * Turn-guidance toolkit of the extractor: a shallow embedding

    Source: [include/extractor/guidance/toolkit.hpp].

    Conventions of the embedding.
    - Enumerations are inductive types; [static_cast]s to and from their
      underlying integers are the explicit maps [modifier_index] and
      [modifier_of_index].
    - Unsigned machine arithmetic is written on [Z] with its wrap-around.
    - A [double] is idealised as an exact rational ([Q]): no rounding, no
      NaN, no infinities.  Every comparison the toolkit makes on angles is
      against an integer constant, so ordering tests agree with binary64 on
      every finite input.
    - Reference parameters that the functions update ([TurnInstruction &])
      become extra components of the returned tuple.
    - Indexing a [std::vector] out of range and [std::string::substr] past
      the end have no result: the embedded functions return [option]. *)

From Stdlib Require Import ZArith QArith Qabs Qminmax Qround Lqa Lia Ascii String.
From stdpp Require Import base decidable option list strings gmap.

#[local] Open Scope Z_scope.

(** ** Data model *)

(** Modelled from the spec: the enumeration [DirectionModifier] is declared
    in guidance/turn_instruction.hpp, which is not part of the sources at
    hand.  The spec (section 3) fixes its eight values and their order,
    which is also the order every table of the toolkit is indexed by. *)
Inductive DirectionModifier : Set :=
  | UTurn
  | SharpRight
  | Right
  | SlightRight
  | Straight
  | SlightLeft
  | Left
  | SharpLeft.

#[global] Instance DirectionModifier_eq_dec : EqDecision DirectionModifier.
Proof. solve_decision. Defined.

(** Modelled from the spec: [detail::num_direction_modifiers], declared
    next to the enumeration, is the number of its values. *)
Definition num_direction_modifiers : Z := 8.

(** [static_cast<std::uint32_t>(modifier)] and [static_cast<int>(modifier)]. *)
Definition modifier_index (m : DirectionModifier) : Z :=
  match m with
  | UTurn => 0
  | SharpRight => 1
  | Right => 2
  | SlightRight => 3
  | Straight => 4
  | SlightLeft => 5
  | Left => 6
  | SharpLeft => 7
  end.

Definition all_modifiers : list DirectionModifier :=
  [UTurn; SharpRight; Right; SlightRight; Straight; SlightLeft; Left; SharpLeft].

(** [static_cast<DirectionModifier>(n)].  The toolkit only casts values
    reduced modulo [num_direction_modifiers], see [modifier_of_index_wrap]. *)
Definition modifier_of_index (n : Z) : DirectionModifier :=
  nth (Z.to_nat n) all_modifiers UTurn.

(** Modelled from the spec: [TurnType] is declared in
    guidance/turn_instruction.hpp.  The toolkit names [Turn], [EndOfRoad] and
    [NoTurn]; the spec (section 3) says the remaining categories (such as a
    roundabout entry) are the non-basic ones, kept here by their integer tag. *)
Inductive TurnType : Set :=
  | NoTurn
  | Turn
  | EndOfRoad
  | OtherTurnType (tag : N).

#[global] Instance TurnType_eq_dec : EqDecision TurnType.
Proof. solve_decision. Defined.

Record TurnInstruction : Set := mkTurnInstruction {
  type : TurnType;
  direction_modifier : DirectionModifier
}.

#[global] Instance TurnInstruction_eq_dec : EqDecision TurnInstruction.
Proof. solve_decision. Defined.

(** Assignment to the field [direction_modifier] of an instruction. *)
Definition set_direction_modifier (i : TurnInstruction) (m : DirectionModifier)
  : TurnInstruction :=
  {| type := type i; direction_modifier := m |}.

(** ** Direction modifier algebra *)

Module detail.

Definition shiftable_ccw : list bool :=
  [false; true; true; false; false; true; true; false].

Definition shiftable_cw : list bool :=
  [false; false; true; true; false; false; true; true].

End detail.

(** [table[static_cast<int>(modifier)]] on one of the boolean tables. *)
Definition flag_at (table : list bool) (m : DirectionModifier) : bool :=
  nth (Z.to_nat (modifier_index m)) table false.

(** Arithmetic of [std::uint32_t]. *)
Definition wrap32 (n : Z) : Z := n mod 2 ^ 32.

Definition forcedShiftCCW (modifier : DirectionModifier) : DirectionModifier :=
  modifier_of_index
    (wrap32 (modifier_index modifier + 1) mod num_direction_modifiers).

Definition shiftCCW (modifier : DirectionModifier) : DirectionModifier :=
  if flag_at detail.shiftable_ccw modifier
  then forcedShiftCCW modifier
  else modifier.

Definition forcedShiftCW (modifier : DirectionModifier) : DirectionModifier :=
  modifier_of_index
    (wrap32 (wrap32 (modifier_index modifier + num_direction_modifiers) - 1)
       mod num_direction_modifiers).

Definition shiftCW (modifier : DirectionModifier) : DirectionModifier :=
  if flag_at detail.shiftable_cw modifier
  then forcedShiftCW modifier
  else modifier.

Definition isBasic (t : TurnType) : bool :=
  bool_decide (t = Turn) || bool_decide (t = EndOfRoad).

Definition isUturn (instruction : TurnInstruction) : bool :=
  isBasic (type instruction)
  && bool_decide (direction_modifier instruction = UTurn).

(** [resolve] updates [to_resolve] in place: the result is the returned
    flag together with the value of [to_resolve] on exit. *)
Definition resolve (to_resolve neighbor : TurnInstruction) (resolve_cw : bool)
  : bool * TurnInstruction :=
  let shifted_turn :=
    if resolve_cw then shiftCW (direction_modifier to_resolve)
    else shiftCCW (direction_modifier to_resolve) in
  if bool_decide (shifted_turn = direction_modifier neighbor)
     || bool_decide (shifted_turn = direction_modifier to_resolve)
  then (false, to_resolve)
  else (true, set_direction_modifier to_resolve shifted_turn).

(** [resolveTransitive] updates [first] and [second]: the result is the
    flag and the values of [first] and [second] on exit, in this order. *)
Definition resolveTransitive (first second third : TurnInstruction)
    (resolve_cw : bool) : bool * TurnInstruction * TurnInstruction :=
  let '(changed, second') := resolve second third resolve_cw in
  if changed
  then (true,
        set_direction_modifier first
          (if resolve_cw then shiftCW (direction_modifier first)
           else shiftCCW (direction_modifier first)),
        second')
  else (false, first, second').

Definition isSlightModifier (m : DirectionModifier) : bool :=
  bool_decide (m = Straight) || bool_decide (m = SlightRight)
  || bool_decide (m = SlightLeft).

Definition isStraight (turn : TurnInstruction) : bool :=
  (isBasic (type turn) || bool_decide (type turn = NoTurn))
  && bool_decide (direction_modifier turn = Straight).

Definition isConflict (first second : TurnInstruction) : bool :=
  (bool_decide (type first = type second)
   && bool_decide (direction_modifier first = direction_modifier second))
  || (isStraight first && isStraight second).

Definition mirrorDirectionModifier (modifier : DirectionModifier)
  : DirectionModifier :=
  nth (Z.to_nat (modifier_index modifier))
    [UTurn; SharpLeft; Left; SlightLeft; Straight; SlightRight; Right; SharpRight]
    UTurn.

(** The operands are promoted to [int]; the sum cannot overflow. *)
Definition isDistinct (first second : DirectionModifier) : bool :=
  if (modifier_index first + 1) mod num_direction_modifiers
     =? modifier_index second
  then false
  else if (modifier_index second + 1) mod num_direction_modifiers
          =? modifier_index first
  then false
  else true.

(** ** Angles and confidence *)

(** Comparisons on [double], values in [bool] as in the source. *)
Definition Qltb (x y : Q) : bool :=
  match (x ?= y)%Q with Lt => true | _ => false end.

Definition Qleb (x y : Q) : bool :=
  match (x ?= y)%Q with Gt => false | _ => true end.

(** [std::abs] is [Qabs]; [std::min a b] is [b] when [b < a] and [a]
    otherwise, which is [Qmin a b]; likewise [std::max] and [Qmax]. *)
Definition angularDeviation (angle from : Q) : Q :=
  let deviation := Qabs (angle - from) in
  Qmin (360 - deviation) deviation.

(** The local table [center] of [getAngularPenalty]: the ideal angle of
    each modifier, by index. *)
Definition center : list Q := [0; 45; 90; 135; 180; 225; 270; 315]%Q.

Definition getAngularPenalty (angle : Q) (modifier : DirectionModifier) : Q :=
  angularDeviation (nth (Z.to_nat (modifier_index modifier)) center 0%Q) angle.

(** Division of [double]s with the zero divisor made visible: [None] stands
    for a division by zero (an infinity or a NaN in binary64). *)
Definition checked_div (a b : Q) : option Q :=
  if Qeq_bool b 0 then None else Some (a / b)%Q.

(** The local table [deviations] of [getTurnConfidence], by index. *)
Definition deviations : list Q := [0; 45; 50; 30; 20; 30; 50; 45]%Q.

(** [deviations[static_cast<int>(modifier)]]. *)
Definition max_deviation_of (modifier : DirectionModifier) : Q :=
  nth (Z.to_nat (modifier_index modifier)) deviations 0%Q.

Definition getTurnConfidence (angle : Q) (instruction : TurnInstruction)
  : option Q :=
  if negb (isBasic (type instruction))
     || bool_decide (direction_modifier instruction = UTurn)
  then Some 1%Q
  else
    let difference := getAngularPenalty angle (direction_modifier instruction) in
    let max_deviation := max_deviation_of (direction_modifier instruction) in
    match checked_div difference max_deviation with
    | Some ratio => Some (1 - ratio * ratio)%Q
    | None => None
    end.

Definition getTurnDirection (angle : Q) : DirectionModifier :=
  if Qltb 0 angle && Qltb angle 60 then SharpRight
  else if Qleb 60 angle && Qltb angle 140 then Right
  else if Qleb 140 angle && Qltb angle 170 then SlightRight
  else if Qleb 165 angle && Qleb angle 195 then Straight
  else if Qltb 190 angle && Qleb angle 220 then SlightLeft
  else if Qltb 220 angle && Qleb angle 300 then Left
  else if Qltb 300 angle && Qltb angle 360 then SharpLeft
  else UTurn.

(** ** Name changes *)

(** Arithmetic of [std::size_t] (64 bits) and [std::string::npos]. *)
Definition wrap64 (n : Z) : Z := n mod 2 ^ 64.

Definition npos : Z := 2 ^ 64 - 1.

(** [s.find(pattern)]: the first position at which [pattern] occurs in [s],
    [npos] when it does not occur. *)
Definition find (s pattern : string) : Z :=
  match String.index 0 pattern s with
  | Some n => Z.of_nat n
  | None => npos
  end.

(** [s.find_first_of(c)] for a single character. *)
Definition find_first_of (s : string) (c : ascii) : Z :=
  find s (String c EmptyString).

(** [s.substr(pos, count)]: the characters from [pos], [count] of them or
    as many as remain; [std::out_of_range] ([None]) when [pos] is past the
    end of [s]. *)
Definition substr (s : string) (pos count : Z) : option string :=
  let size := Z.of_nat (String.length s) in
  if size <? pos then None
  else Some (String.substring (Z.to_nat pos) (Z.to_nat (Z.min count (size - pos))) s).

Definition empty (s : string) : bool := bool_decide (s = EmptyString).

(** The lambda [split] of [requiresNameAnnounced].  Both out-parameters are
    empty strings when it is called; the result is their value on exit. *)
Definition split (name : string) : option (string * string) :=
  let ref_begin := find_first_of name "("%char in
  if negb (ref_begin =? npos) then
    out_name ←
      (if negb (ref_begin =? 0) then substr name 0 (wrap64 (ref_begin - 1))
       else Some EmptyString);
    let ref_end := find_first_of name ")"%char in
    out_ref ←
      substr name (wrap64 (ref_begin + 1))
        (wrap64 (wrap64 (ref_end - ref_begin) - 1));
    Some (out_name, out_ref)
  else Some (name, EmptyString).

Definition requiresNameAnnounced (from to : string) : option bool :=
  '(from_name, from_ref) ← split from;
  '(to_name, to_ref) ← split to;
  let names_are_empty := empty from_name && empty to_name in
  let names_are_equal := bool_decide (from_name = to_name) in
  let name_is_removed := negb (empty from_name) && empty to_name in
  let refs_are_empty := empty from_ref && empty to_ref in
  let ref_is_contained :=
    empty from_ref || empty to_ref
    || (negb (find from_ref to_ref =? npos)
        || negb (find to_ref from_ref =? npos)) in
  let ref_is_removed := negb (empty from_ref) && empty to_ref in
  let obvious_change :=
    (names_are_empty && refs_are_empty)
    || (names_are_equal && ref_is_contained)
    || (names_are_equal && refs_are_empty)
    || name_is_removed || ref_is_removed in
  Some (negb obvious_change).

(** ** Representative coordinate of an edge *)

(** [NodeID] and [EdgeID] are unsigned 32-bit identifiers. *)
Definition NodeID : Set := N.
Definition EdgeID : Set := N.

(** Modelled from the spec: [util::Coordinate] (util/coordinate.hpp) is a
    (longitude, latitude) pair; both components are fixed-point integers. *)
Module Coordinate.
Record t : Set := mk { lon : Z; lat : Z }.
End Coordinate.

(** Modelled from the spec: [extractor::QueryNode] (extractor/query_node.hpp),
    a node of the road network with its coordinate. *)
Module QueryNode.
Record t : Set := mk { lon : Z; lat : Z; node_id : N }.
End QueryNode.

(** Modelled from the spec: an entry of a compressed geometry
    (extractor/compressed_edge_container.hpp); the toolkit reads [node_id]. *)
Module CompressedEdge.
Record t : Set := mk { node_id : NodeID; weight : Z }.
End CompressedEdge.

(** Modelled from the spec: [extractor::CompressedEdgeContainer] with its
    two queries, [hasCompressedGeometry] and [geometryBucket] (section 6):
    a finite map from edges to their stored sequence of intermediate nodes. *)
Module CompressedEdgeContainer.
Definition t : Type := gmap N (list CompressedEdge.t).

Definition HasEntryForID (c : gmap N (list CompressedEdge.t)) (id : EdgeID)
  : bool :=
  bool_decide (is_Some (c !! id)).

Definition GetBucketReference (c : gmap N (list CompressedEdge.t))
    (id : EdgeID) : option (list CompressedEdge.t) :=
  c !! id.
End CompressedEdgeContainer.

(** The lambda [extractCoordinateFromNode]. *)
Definition extractCoordinateFromNode (node : QueryNode.t) : Coordinate.t :=
  Coordinate.mk (QueryNode.lon node) (QueryNode.lat node).

(** [query_nodes[id]]; no result outside the vector. *)
Definition query_node_at (query_nodes : list QueryNode.t) (id : NodeID)
  : option QueryNode.t :=
  query_nodes !! N.to_nat id.

Definition DESIRED_SEGMENT_LENGTH : Q := 10.

(** The lambda [getFactor]: the share of the current segment that is
    missing to reach [DESIRED_SEGMENT_LENGTH]. *)
Definition getFactor (first_distance second_distance : Q) : Q :=
  let segment_length := (second_distance - first_distance)%Q in
  let missing_distance := (DESIRED_SEGMENT_LENGTH - first_distance)%Q in
  Qmax 0 (Qmin (missing_distance / segment_length) 1).

(** The two locals of [getRepresentativeCoordinate]: the node the
    traversal starts from and the node it ends at. *)
Definition base_node_id (traverse_in_reverse : bool)
    (from_node to_node : NodeID) : NodeID :=
  if traverse_in_reverse then to_node else from_node.

Definition final_node (traverse_in_reverse : bool)
    (from_node to_node : NodeID) : NodeID :=
  if traverse_in_reverse then from_node else to_node.

Section Geometry.

(** The distance and interpolation primitives of
    util/coordinate_calculation.hpp are taken as given. *)
Variable haversineDistance : Coordinate.t -> Coordinate.t -> Q.
Variable interpolateLinear : Q -> Coordinate.t -> Coordinate.t -> Coordinate.t.

(** The loop of [getCoordinateFromCompressedRange] followed by the code
    after it, started with [distance_to_current_coordinate] already walked;
    the iterator range is the list of entries still to visit. *)
Fixpoint walkCompressedRange (distance_to_current_coordinate : Q)
    (current_coordinate : Coordinate.t)
    (compressed_geometry : list CompressedEdge.t)
    (final_coordinate : Coordinate.t)
    (query_nodes : list QueryNode.t) : option Coordinate.t :=
  match compressed_geometry with
  | entry :: remaining =>
      node ← query_node_at query_nodes (CompressedEdge.node_id entry);
      let next_coordinate := extractCoordinateFromNode node in
      let distance_to_next_coordinate :=
        (distance_to_current_coordinate
         + haversineDistance current_coordinate next_coordinate)%Q in
      if Qleb DESIRED_SEGMENT_LENGTH distance_to_next_coordinate
      then Some (interpolateLinear
                   (getFactor distance_to_current_coordinate
                      distance_to_next_coordinate)
                   current_coordinate next_coordinate)
      else walkCompressedRange distance_to_next_coordinate next_coordinate
             remaining final_coordinate query_nodes
  | [] =>
      let distance_to_next_coordinate :=
        (distance_to_current_coordinate
         + haversineDistance current_coordinate final_coordinate)%Q in
      if Qltb distance_to_current_coordinate DESIRED_SEGMENT_LENGTH
         && Qleb DESIRED_SEGMENT_LENGTH distance_to_next_coordinate
      then Some (interpolateLinear
                   (getFactor distance_to_current_coordinate
                      distance_to_next_coordinate)
                   current_coordinate final_coordinate)
      else Some final_coordinate
  end.

Definition getCoordinateFromCompressedRange
    (current_coordinate : Coordinate.t)
    (compressed_geometry : list CompressedEdge.t)
    (final_coordinate : Coordinate.t)
    (query_nodes : list QueryNode.t) : option Coordinate.t :=
  walkCompressedRange 0 current_coordinate compressed_geometry
    final_coordinate query_nodes.

Definition getRepresentativeCoordinate (from_node to_node : NodeID)
    (via_edge_id : EdgeID) (traverse_in_reverse : bool)
    (compressed_geometries : gmap N (list CompressedEdge.t))
    (query_nodes : list QueryNode.t) : option Coordinate.t :=
  if negb (CompressedEdgeContainer.HasEntryForID compressed_geometries
             via_edge_id)
  then
    node ← (if traverse_in_reverse then query_node_at query_nodes from_node
            else query_node_at query_nodes to_node);
    Some (extractCoordinateFromNode node)
  else
    geometry ← CompressedEdgeContainer.GetBucketReference
                 compressed_geometries via_edge_id;
    base_node ←
      query_node_at query_nodes
        (base_node_id traverse_in_reverse from_node to_node);
    let base_coordinate := extractCoordinateFromNode base_node in
    final ←
      query_node_at query_nodes
        (final_node traverse_in_reverse from_node to_node);
    let final_coordinate := extractCoordinateFromNode final in
    if traverse_in_reverse
    then getCoordinateFromCompressedRange base_coordinate (rev geometry)
           final_coordinate query_nodes
    else getCoordinateFromCompressedRange base_coordinate geometry
           final_coordinate query_nodes.

End Geometry.

(** ** Further predicates on turns *)

Definition isSlightTurn (turn : TurnInstruction) : bool :=
  (isBasic (type turn) || bool_decide (type turn = NoTurn))
  && (bool_decide (direction_modifier turn = Straight)
      || bool_decide (direction_modifier turn = SlightRight)
      || bool_decide (direction_modifier turn = SlightLeft)).

Definition isSharpTurn (turn : TurnInstruction) : bool :=
  isBasic (type turn)
  && (bool_decide (direction_modifier turn = SharpLeft)
      || bool_decide (direction_modifier turn = SharpRight)).

Definition canBeSuppressed (t : TurnType) : bool :=
  if bool_decide (t = Turn) then true else false.

(** ** Discrete angles *)

(** [detail::discrete_angle_step_size]. *)
Definition discrete_angle_step_size : Q := 360 / 256.

(** Modelled from the spec: [DiscreteAngle] (guidance/discrete_angle.hpp) is
    a bucket number out of 256, an unsigned 8-bit integer. *)
Definition DiscreteAngle : Set := Z.

(** Conversion of a [double] to an integer type truncates toward zero. *)
Definition truncate (x : Q) : Z :=
  if Qltb x 0 then Qceiling x else Qfloor x.

(** [static_cast<std::uint8_t>(x)]: the truncated value when it fits into 8
    bits; the conversion has no defined result otherwise. *)
Definition to_uint8 (x : Q) : option Z :=
  let n := truncate x in
  if (0 <=? n) && (n <=? 255) then Some n else None.

Definition discretizeAngle (angle : Q) : option DiscreteAngle :=
  to_uint8 (angle / discrete_angle_step_size).

Definition angleFromDiscreteAngle (angle : DiscreteAngle) : Q :=
  (inject_Z angle * discrete_angle_step_size)%Q.

(** ** Road classes and forks *)

(** Modelled from the spec: [FunctionalRoadClass]
    (guidance/classification_data.hpp) is an enumeration of road classes;
    a class is kept here as the integer [static_cast<int>] gives for it. *)
Definition FunctionalRoadClass : Set := N.

(** The local table [road_priority] of [getPriority]. *)
Definition road_priority : list Z :=
  [10; 0; 10; 2; 10; 4; 10; 6; 10; 8; 10; 11; 10; 12; 10; 14].

(** [road_priority[static_cast<int>(road_class)]]; no result outside the
    table. *)
Definition getPriority (road_class : FunctionalRoadClass) : option Z :=
  road_priority !! N.to_nat road_class.

Definition canBeSeenAsFork (first second : FunctionalRoadClass) : option bool :=
  first_priority ← getPriority first;
  second_priority ← getPriority second;
  Some (Z.abs (first_priority - second_priority) <=? 1).

(** ** Vocabulary of the statements

    The definitions below are not part of the toolkit: they name what the
    properties talk about. *)

(** The modifier [resolve] and [resolveTransitive] try to move to. *)
Definition shifted_in (resolve_cw : bool) (m : DirectionModifier)
  : DirectionModifier :=
  if resolve_cw then shiftCW m else shiftCCW m.

(** The same step taken regardless of the shiftability tables. *)
Definition forced_in (resolve_cw : bool) (m : DirectionModifier)
  : DirectionModifier :=
  if resolve_cw then forcedShiftCW m else forcedShiftCCW m.

(** The condition under which [resolve] gives up. *)
Definition blocked (candidate neighbor : TurnInstruction) (resolve_cw : bool)
  : Prop :=
  shifted_in resolve_cw (direction_modifier candidate)
  = direction_modifier neighbor
  \/ shifted_in resolve_cw (direction_modifier candidate)
     = direction_modifier candidate.


(** The bands of angles [getTurnDirection] effectively assigns to each
    modifier once the order of its tests is taken into account. *)
Definition band (m : DirectionModifier) (angle : Q) : Prop :=
  match m with
  | SharpRight => (0 < angle < 60)%Q
  | Right => (60 <= angle < 140)%Q
  | SlightRight => (140 <= angle < 170)%Q
  | Straight => (170 <= angle <= 195)%Q
  | SlightLeft => (195 < angle <= 220)%Q
  | Left => (220 < angle <= 300)%Q
  | SharpLeft => (300 < angle < 360)%Q
  | UTurn => (angle <= 0 \/ 360 <= angle)%Q
  end.

(** A bearing is a compass direction, in degrees from 0 to 360. *)
Definition is_bearing (x : Q) : Prop := (0 <= x <= 360)%Q.

(** The ideal center and the tolerance of a modifier as the specification
    tabulates them, by name rather than by index. *)
Definition spec_ideal_center (m : DirectionModifier) : Q :=
  match m with
  | UTurn => 0
  | SharpRight => 45
  | Right => 90
  | SlightRight => 135
  | Straight => 180
  | SlightLeft => 225
  | Left => 270
  | SharpLeft => 315
  end.

Definition spec_tolerance (m : DirectionModifier) : Q :=
  match m with
  | UTurn => 0
  | SharpRight => 45
  | Right => 50
  | SlightRight => 30
  | Straight => 20
  | SlightLeft => 30
  | Left => 50
  | SharpLeft => 45
  end.


(** The modifiers on the right-hand side of the circle, and those on the
    left-hand side; [UTurn] and [Straight] are on neither. *)
Definition is_right (m : DirectionModifier) : Prop :=
  0 < modifier_index m < 4.

Definition is_left (m : DirectionModifier) : Prop :=
  4 < modifier_index m.

(** * Properties *)

(** ** The modifier algebra *)

Lemma modifier_index_range (m : DirectionModifier) :
  0 <= modifier_index m < num_direction_modifiers.
Proof. destruct m; unfold num_direction_modifiers; simpl; lia. Qed.

Lemma modifier_of_index_index (m : DirectionModifier) :
  modifier_of_index (modifier_index m) = m.
Proof. now destruct m. Qed.

Lemma modifier_index_inj (a b : DirectionModifier) :
  modifier_index a = modifier_index b -> a = b.
Proof.
  intros H.
  rewrite <- (modifier_of_index_index a), <- (modifier_of_index_index b).
  now rewrite H.
Qed.

(** Every index the toolkit casts back has been reduced modulo the number
    of modifiers, so the cast lands on the modifier with that index. *)
Lemma modifier_of_index_wrap (n : Z) :
  modifier_index (modifier_of_index (n mod num_direction_modifiers))
  = n mod num_direction_modifiers.
Proof.
  pose proof (Z.mod_pos_bound n num_direction_modifiers eq_refl) as Hb.
  unfold num_direction_modifiers in *.
  assert (Hc : n mod 8 = 0 \/ n mod 8 = 1 \/ n mod 8 = 2 \/ n mod 8 = 3 \/
               n mod 8 = 4 \/ n mod 8 = 5 \/ n mod 8 = 6 \/ n mod 8 = 7) by lia.
  repeat destruct Hc as [Hc | Hc]; now rewrite Hc.
Qed.

Lemma forcedShiftCCW_index (m : DirectionModifier) :
  modifier_index (forcedShiftCCW m)
  = (modifier_index m + 1) mod num_direction_modifiers.
Proof. now destruct m. Qed.

Lemma forcedShiftCW_index (m : DirectionModifier) :
  modifier_index (forcedShiftCW m)
  = (modifier_index m - 1) mod num_direction_modifiers.
Proof. now destruct m. Qed.

(** The two forced shifts undo each other: they walk the same circle in
    opposite directions. *)
Lemma forcedShiftCW_CCW (m : DirectionModifier) :
  forcedShiftCW (forcedShiftCCW m) = m.
Proof. now destruct m. Qed.

Lemma forcedShiftCCW_CW (m : DirectionModifier) :
  forcedShiftCCW (forcedShiftCW m) = m.
Proof. now destruct m. Qed.

Lemma forcedShiftCW_moves (m : DirectionModifier) : forcedShiftCW m <> m.
Proof. now destruct m. Qed.

Lemma forcedShiftCCW_moves (m : DirectionModifier) : forcedShiftCCW m <> m.
Proof. now destruct m. Qed.

(** A flag-respecting shift is the forced one or the identity. *)
Lemma shiftCW_cases (m : DirectionModifier) :
  shiftCW m = m \/ shiftCW m = forcedShiftCW m.
Proof. unfold shiftCW. destruct (flag_at _ m); auto. Qed.

Lemma shiftCCW_cases (m : DirectionModifier) :
  shiftCCW m = m \/ shiftCCW m = forcedShiftCCW m.
Proof. unfold shiftCCW. destruct (flag_at _ m); auto. Qed.

(** Neither shift ever produces [UTurn] or [Straight] from another
    modifier: the two axis values are fixed points and are never reached. *)
Lemma shiftCW_axis (m : DirectionModifier) :
  (shiftCW m = Straight <-> m = Straight) /\ (shiftCW m = UTurn <-> m = UTurn).
Proof. destruct m; vm_compute; intuition congruence. Qed.

Lemma shiftCCW_axis (m : DirectionModifier) :
  (shiftCCW m = Straight <-> m = Straight)
  /\ (shiftCCW m = UTurn <-> m = UTurn).
Proof. destruct m; vm_compute; intuition congruence. Qed.

(** The mirror table swaps the right-hand modifiers with the left-hand
    ones of the same sharpness and fixes [UTurn] and [Straight]. *)
Lemma mirrorDirectionModifier_table (m : DirectionModifier) :
  mirrorDirectionModifier m
  = match m with
    | UTurn => UTurn
    | SharpRight => SharpLeft
    | Right => Left
    | SlightRight => SlightLeft
    | Straight => Straight
    | SlightLeft => SlightRight
    | Left => Right
    | SharpLeft => SharpRight
    end.
Proof. now destruct m. Qed.

Lemma mirrorDirectionModifier_involutive (m : DirectionModifier) :
  mirrorDirectionModifier (mirrorDirectionModifier m) = m.
Proof. now destruct m. Qed.

(** C2, as the code has it.  In the index order UTurn(0), SharpRight(1),
    Right(2), SlightRight(3), Straight(4), SlightLeft(5), Left(6),
    SharpLeft(7), the clockwise shift moves a clockwise-shiftable modifier
    one position backward (to the previous index, modulo 8) and leaves the
    others where they are; so [shiftCW Right] is [SharpRight], and
    [shiftCW Straight] is [Straight]. *)
Theorem shiftCW_previous_index (m : DirectionModifier) :
  modifier_index (shiftCW m)
  = (if flag_at detail.shiftable_cw m
     then (modifier_index m - 1) mod num_direction_modifiers
     else modifier_index m)
  /\ shiftCW Right = SharpRight
  /\ shiftCW Straight = Straight.
Proof.
  split; [| split; reflexivity].
  unfold shiftCW.
  destruct (flag_at detail.shiftable_cw m); [apply forcedShiftCW_index | reflexivity].
Qed.

(** C2, counterexample: [Right] is clockwise-shiftable, and its clockwise
    shift is [SharpRight], the previous index, not [SlightRight], the next. *)
Lemma shiftCW_Right_not_next_index :
  flag_at detail.shiftable_cw Right = true
  /\ shiftCW Right = SharpRight
  /\ shiftCW Right <> SlightRight
  /\ modifier_index (shiftCW Right)
     <> (modifier_index Right + 1) mod num_direction_modifiers.
Proof. repeat split; try reflexivity; discriminate. Qed.

(** ** Conflict resolution *)

Lemma resolve_blocked (candidate neighbor : TurnInstruction) (cw : bool) :
  blocked candidate neighbor cw ->
  resolve candidate neighbor cw = (false, candidate).
Proof.
  unfold blocked, shifted_in, resolve. intros Hb.
  destruct (_ || _) eqn:E; [reflexivity |].
  apply orb_false_elim in E as [E1 E2].
  apply bool_decide_eq_false in E1, E2.
  destruct cw; tauto.
Qed.

Lemma resolve_free (candidate neighbor : TurnInstruction) (cw : bool) :
  ~ blocked candidate neighbor cw ->
  resolve candidate neighbor cw
  = (true,
     set_direction_modifier candidate
       (shifted_in cw (direction_modifier candidate))).
Proof.
  unfold blocked, shifted_in, resolve. intros Hb.
  destruct (_ || _) eqn:E; [| now destruct cw].
  exfalso. apply Hb.
  apply orb_prop in E as [E | E]; apply bool_decide_eq_true in E;
    destruct cw; auto.
Qed.

Lemma blocked_dec (candidate neighbor : TurnInstruction) (cw : bool) :
  blocked candidate neighbor cw \/ ~ blocked candidate neighbor cw.
Proof.
  unfold blocked.
  destruct (decide (shifted_in cw (direction_modifier candidate)
                    = direction_modifier neighbor));
  destruct (decide (shifted_in cw (direction_modifier candidate)
                    = direction_modifier candidate)); tauto.
Qed.

Lemma resolve_flag (candidate neighbor : TurnInstruction) (cw : bool) :
  (resolve candidate neighbor cw).1 = false <-> blocked candidate neighbor cw.
Proof.
  destruct (blocked_dec candidate neighbor cw) as [Hb | Hb].
  - rewrite (resolve_blocked _ _ _ Hb). tauto.
  - rewrite (resolve_free _ _ _ Hb). simpl. split; [discriminate | tauto].
Qed.

(** [resolve] only ever writes the modifier: the turn type is kept. *)
Lemma resolve_type (candidate neighbor : TurnInstruction) (cw : bool) :
  type (resolve candidate neighbor cw).2 = type candidate.
Proof.
  destruct (blocked_dec candidate neighbor cw) as [Hb | Hb].
  - now rewrite (resolve_blocked _ _ _ Hb).
  - now rewrite (resolve_free _ _ _ Hb).
Qed.

(** C6.  [resolve candidate neighbor resolve_cw] returns false exactly when
    the one-step shift of the candidate's modifier in the requested
    rotation equals the neighbor's modifier or the candidate's own
    modifier, and then the candidate is left as it was; in every other
    case the candidate's modifier is replaced by the shifted one and the
    function returns true. *)
Theorem resolve_fails_exactly_when_blocked
    (candidate neighbor : TurnInstruction) (resolve_cw : bool) :
  ((resolve candidate neighbor resolve_cw).1 = false
   <-> blocked candidate neighbor resolve_cw)
  /\ (blocked candidate neighbor resolve_cw ->
      resolve candidate neighbor resolve_cw = (false, candidate))
  /\ (~ blocked candidate neighbor resolve_cw ->
      resolve candidate neighbor resolve_cw
      = (true,
         {| type := type candidate;
            direction_modifier :=
              if resolve_cw then shiftCW (direction_modifier candidate)
              else shiftCCW (direction_modifier candidate) |})).
Proof.
  split; [apply resolve_flag |].
  split; [apply resolve_blocked |].
  intros Hb. now rewrite (resolve_free _ _ _ Hb).
Qed.

(** C6 at work: a [Right] turn next to a [Straight] one moves clockwise to
    [SharpRight]; a [Straight] turn cannot move at all. *)
Lemma resolve_fails_exactly_when_blocked_witness :
  ~ blocked (mkTurnInstruction Turn Right) (mkTurnInstruction Turn Straight) true
  /\ resolve (mkTurnInstruction Turn Right) (mkTurnInstruction Turn Straight) true
     = (true, mkTurnInstruction Turn SharpRight)
  /\ blocked (mkTurnInstruction Turn Straight) (mkTurnInstruction Turn Right) true
  /\ resolve (mkTurnInstruction Turn Straight) (mkTurnInstruction Turn Right) true
     = (false, mkTurnInstruction Turn Straight).
Proof.
  assert (Hfree : ~ blocked (mkTurnInstruction Turn Right)
                    (mkTurnInstruction Turn Straight) true).
  { unfold blocked; simpl. intros [H | H]; discriminate H. }
  assert (Hblocked : blocked (mkTurnInstruction Turn Straight)
                       (mkTurnInstruction Turn Right) true).
  { unfold blocked; simpl. right. reflexivity. }
  split; [exact Hfree |].
  split.
  - exact (proj2 (proj2 (resolve_fails_exactly_when_blocked
                           (mkTurnInstruction Turn Right)
                           (mkTurnInstruction Turn Straight) true)) Hfree).
  - split; [exact Hblocked |].
    exact (proj1 (proj2 (resolve_fails_exactly_when_blocked
                           (mkTurnInstruction Turn Straight)
                           (mkTurnInstruction Turn Right) true)) Hblocked).
Defined.

(** C1, as the code has it.  When resolving [second] against [third]
    succeeds, [resolveTransitive] returns true, [second] carries its
    shifted modifier, and [first] keeps its type while its modifier depends
    on its entry in the shiftability table of the rotation: when the entry
    is true the modifier moves exactly one position in that rotation, and
    when it is false the modifier stays as it was; it never moves more than
    one position.  When resolving [second] against [third] fails, the
    function returns false and [first] and [second] are left untouched. *)
Theorem resolveTransitive_shifts_first_when_shiftable
    (first second third : TurnInstruction) (resolve_cw : bool) :
  ((resolve second third resolve_cw).1 = true ->
   (resolveTransitive first second third resolve_cw).1.1 = true
   /\ (resolveTransitive first second third resolve_cw).2
      = (resolve second third resolve_cw).2
   /\ type (resolveTransitive first second third resolve_cw).1.2 = type first
   /\ (flag_at (if resolve_cw then detail.shiftable_cw
                else detail.shiftable_ccw) (direction_modifier first) = true ->
       direction_modifier (resolveTransitive first second third resolve_cw).1.2
       = forced_in resolve_cw (direction_modifier first)
       /\ direction_modifier (resolveTransitive first second third resolve_cw).1.2
          <> direction_modifier first)
   /\ (flag_at (if resolve_cw then detail.shiftable_cw
                else detail.shiftable_ccw) (direction_modifier first) = false ->
       direction_modifier (resolveTransitive first second third resolve_cw).1.2
       = direction_modifier first))
  /\ ((resolve second third resolve_cw).1 = false ->
      resolveTransitive first second third resolve_cw = (false, first, second)).
Proof.
  unfold resolveTransitive.
  destruct (blocked_dec second third resolve_cw) as [Hb | Hb].
  - rewrite (resolve_blocked _ _ _ Hb). simpl. split; [discriminate | reflexivity].
  - rewrite (resolve_free _ _ _ Hb). simpl. split; [| discriminate].
    intros _. do 3 (split; [reflexivity |]).
    split; intros Hflag.
    + split.
      * unfold forced_in, shiftCW, shiftCCW.
        destruct resolve_cw; rewrite Hflag; reflexivity.
      * unfold shiftCW, shiftCCW. destruct resolve_cw; rewrite Hflag.
        -- apply forcedShiftCW_moves.
        -- apply forcedShiftCCW_moves.
    + unfold shiftCW, shiftCCW. destruct resolve_cw; rewrite Hflag; reflexivity.
Qed.

(** C1 at work, clockwise, with a middle turn [Right] that can move: a
    first turn [SlightRight], whose entry in the table is true, moves to
    [Right]; a first turn [Straight], whose entry is false, stays. *)
Lemma resolveTransitive_shifts_first_when_shiftable_witness :
  direction_modifier
    (resolveTransitive (mkTurnInstruction Turn SlightRight)
       (mkTurnInstruction Turn Right) (mkTurnInstruction Turn Right) true).1.2
  = forced_in true SlightRight
  /\ direction_modifier
       (resolveTransitive (mkTurnInstruction Turn Straight)
          (mkTurnInstruction Turn Right) (mkTurnInstruction Turn Right) true).1.2
     = Straight.
Proof.
  split.
  - exact (proj1 (proj1 (proj2 (proj2 (proj2 (proj1
             (resolveTransitive_shifts_first_when_shiftable
                (mkTurnInstruction Turn SlightRight)
                (mkTurnInstruction Turn Right)
                (mkTurnInstruction Turn Right) true) eq_refl)))) eq_refl)).
  - exact (proj2 (proj2 (proj2 (proj2 (proj1
             (resolveTransitive_shifts_first_when_shiftable
                (mkTurnInstruction Turn Straight)
                (mkTurnInstruction Turn Right)
                (mkTurnInstruction Turn Right) true) eq_refl)))) eq_refl).
Defined.

(** C1, counterexample: three turns, the outer one [Straight].  Resolving
    the middle [Right] against the third succeeds and [resolveTransitive]
    returns true, yet the first keeps its modifier [Straight]: it is not
    moved to [SlightRight], where a forced clockwise step would put it. *)
Lemma resolveTransitive_first_not_forced :
  resolveTransitive (mkTurnInstruction Turn Straight)
    (mkTurnInstruction Turn Right) (mkTurnInstruction Turn Right) true
  = (true, mkTurnInstruction Turn Straight, mkTurnInstruction Turn SharpRight)
  /\ forcedShiftCW Straight = SlightRight
  /\ Straight <> forcedShiftCW Straight.
Proof. repeat split; try reflexivity; discriminate. Qed.

(** C10.  A modifier is distinct from itself, and two modifiers are
    reported as not distinct exactly when one is a single position away
    from the other on the circle of eight, in either rotation. *)
Theorem isDistinct_false_only_for_neighbours (a b : DirectionModifier) :
  isDistinct a a = true
  /\ (isDistinct a b = false
      <-> (modifier_index b = (modifier_index a + 1) mod 8
           \/ modifier_index b = (modifier_index a - 1) mod 8))
  /\ (isDistinct a b = false <-> (b = forcedShiftCCW a \/ b = forcedShiftCW a)).
Proof.
  split; [now destruct a |].
  split.
  - destruct a, b; vm_compute; split; intros H;
      try reflexivity; try discriminate H; auto;
      destruct H as [H | H]; discriminate H.
  - destruct a, b; vm_compute; split; intros H;
      try reflexivity; try discriminate H; auto;
      destruct H as [H | H]; discriminate H.
Qed.


(** ** Angles *)

Lemma Qltb_true (x y : Q) : Qltb x y = true <-> (x < y)%Q.
Proof.
  unfold Qltb. destruct (Qcompare_spec x y) as [H | H | H];
    split; intros H'; try reflexivity; try discriminate H'; lra.
Qed.

Lemma Qltb_false (x y : Q) : Qltb x y = false <-> (y <= x)%Q.
Proof.
  unfold Qltb. destruct (Qcompare_spec x y) as [H | H | H];
    split; intros H'; try reflexivity; try discriminate H'; lra.
Qed.

Lemma Qleb_true (x y : Q) : Qleb x y = true <-> (x <= y)%Q.
Proof.
  unfold Qleb. destruct (Qcompare_spec x y) as [H | H | H];
    split; intros H'; try reflexivity; try discriminate H'; lra.
Qed.

Lemma Qleb_false (x y : Q) : Qleb x y = false <-> (y < x)%Q.
Proof.
  unfold Qleb. destruct (Qcompare_spec x y) as [H | H | H];
    split; intros H'; try reflexivity; try discriminate H'; lra.
Qed.

(** Case analysis on every comparison of the goal, each case carrying the
    inequality it stands for. *)
Ltac compare_cases :=
  repeat match goal with
    | |- context [Qltb ?a ?b] =>
        let E := fresh "E" in
        destruct (Qltb a b) eqn:E;
        [apply Qltb_true in E | apply Qltb_false in E]
    | |- context [Qleb ?a ?b] =>
        let E := fresh "E" in
        destruct (Qleb a b) eqn:E;
        [apply Qleb_true in E | apply Qleb_false in E]
    end.

(** The bands are disjoint and cover every angle, and [getTurnDirection]
    answers the one band its argument lies in. *)
Lemma getTurnDirection_in_band (angle : Q) :
  band (getTurnDirection angle) angle.
Proof.
  unfold getTurnDirection. compare_cases; simpl; lra.
Qed.

Lemma band_disjoint (m m' : DirectionModifier) (angle : Q) :
  band m angle -> band m' angle -> m = m'.
Proof.
  destruct m, m'; simpl; intros H H'; try reflexivity; exfalso; lra.
Qed.

Lemma getTurnDirection_band_iff (m : DirectionModifier) (angle : Q) :
  getTurnDirection angle = m <-> band m angle.
Proof.
  split.
  - intros <-. apply getTurnDirection_in_band.
  - intros H. exact (band_disjoint _ _ _ (getTurnDirection_in_band angle) H).
Qed.

(** C3, as the code has it.  The bands are tested in the order SharpRight,
    Right, SlightRight, Straight, SlightLeft, Left, SharpLeft and the first
    match wins.  So an angle is classified by the disjoint bands of [band];
    the overlap [165,170) goes to SlightRight and the overlap (190,195]
    goes to Straight, whose test comes before that of SlightLeft.  In
    particular 180 is Straight, 0 is UTurn, 90 is Right, 270 is Left and 45
    is SharpRight. *)
Theorem getTurnDirection_first_band_wins (angle : Q) :
  (forall m, getTurnDirection angle = m <-> band m angle)
  /\ ((165 <= angle < 170)%Q -> getTurnDirection angle = SlightRight)
  /\ ((190 < angle <= 195)%Q -> getTurnDirection angle = Straight)
  /\ getTurnDirection 180 = Straight
  /\ getTurnDirection 0 = UTurn
  /\ getTurnDirection 90 = Right
  /\ getTurnDirection 270 = Left
  /\ getTurnDirection 45 = SharpRight.
Proof.
  split; [intros m; apply getTurnDirection_band_iff |].
  split; [intros H; apply getTurnDirection_band_iff; simpl; lra |].
  split; [intros H; apply getTurnDirection_band_iff; simpl; lra |].
  repeat split.
Qed.

(** C3 at work on the two overlaps: 167 and 193. *)
Lemma getTurnDirection_first_band_wins_witness :
  getTurnDirection 167 = SlightRight /\ getTurnDirection 193 = Straight.
Proof.
  split.
  - apply (proj1 (proj2 (getTurnDirection_first_band_wins 167))).
    split; [apply Qleb_true | apply Qltb_true]; reflexivity.
  - apply (proj1 (proj2 (proj2 (getTurnDirection_first_band_wins 193)))).
    split; [apply Qltb_true | apply Qleb_true]; reflexivity.
Defined.

(** C3, counterexample: 192 lies in (190,195], and it is classified as
    Straight, not as SlightLeft. *)
Lemma getTurnDirection_192_is_Straight :
  (190 < 192 <= 195)%Q
  /\ getTurnDirection 192 = Straight
  /\ getTurnDirection 192 <> SlightLeft.
Proof.
  split; [split; [apply Qltb_true | apply Qleb_true]; reflexivity |].
  split; [reflexivity | discriminate].
Qed.

(** ** Angular deviation *)

Lemma angularDeviation_sym (a b : Q) :
  angularDeviation a b = angularDeviation b a.
Proof. unfold angularDeviation. now rewrite (Qabs_Qminus a b). Qed.

Lemma angularDeviation_self (c : Q) : (angularDeviation c c == 0)%Q.
Proof.
  unfold angularDeviation.
  assert (Hd : (Qabs (c - c) == 0)%Q).
  { rewrite Qabs_pos; lra. }
  destruct (Q.min_spec (360 - Qabs (c - c)) (Qabs (c - c))) as [[H ->] | [H ->]];
    lra.
Qed.

Lemma angularDeviation_range (a b : Q) :
  (0 <= a <= 360)%Q -> (0 <= b <= 360)%Q ->
  (0 <= angularDeviation a b <= 180)%Q.
Proof.
  intros Ha Hb. unfold angularDeviation.
  assert (Hd : (0 <= Qabs (a - b) <= 360)%Q).
  { split; [apply Qabs_nonneg |]. apply Qabs_Qle_condition. lra. }
  destruct (Q.min_spec (360 - Qabs (a - b)) (Qabs (a - b))) as [[H ->] | [H ->]];
    lra.
Qed.

(** C5.  [angularDeviation c c] is 0 for every [c]; [angularDeviation] is
    symmetric in its two arguments; and for bearings [a] and [b], that is
    angles between 0 and 360 degrees, [angularDeviation a b] lies between 0
    and 180. *)
Theorem angularDeviation_zero_sym_bounded (a b c : Q) :
  (angularDeviation c c == 0)%Q
  /\ angularDeviation a b = angularDeviation b a
  /\ (is_bearing a -> is_bearing b -> (0 <= angularDeviation a b <= 180)%Q).
Proof.
  split; [apply angularDeviation_self |].
  split; [apply angularDeviation_sym |].
  apply angularDeviation_range.
Qed.

(** C5 at work: the bearings 10 and 350 are 20 degrees apart, across 0. *)
Lemma angularDeviation_zero_sym_bounded_witness :
  (0 <= angularDeviation 10 350 <= 180)%Q.
Proof.
  apply (proj2 (proj2 (angularDeviation_zero_sym_bounded 10 350 0)));
    unfold is_bearing; lra.
Defined.

(** Outside the range of bearings the bound does not hold: the deviation
    of 720 from 0 is negative. *)
Lemma angularDeviation_out_of_range : (angularDeviation 720 0 == -360)%Q.
Proof. reflexivity. Qed.

(** ** Confidence *)

Lemma center_is_spec (m : DirectionModifier) :
  nth (Z.to_nat (modifier_index m)) center 0%Q = spec_ideal_center m.
Proof. now destruct m. Qed.

Lemma max_deviation_is_spec (m : DirectionModifier) :
  max_deviation_of m = spec_tolerance m.
Proof. now destruct m. Qed.

Lemma getAngularPenalty_is_deviation (angle : Q) (m : DirectionModifier) :
  getAngularPenalty angle m = angularDeviation angle (spec_ideal_center m).
Proof.
  unfold getAngularPenalty. rewrite center_is_spec. apply angularDeviation_sym.
Qed.

Lemma max_deviation_zero_iff (m : DirectionModifier) :
  (max_deviation_of m == 0)%Q <-> m = UTurn.
Proof.
  destruct m; split; intros H; try reflexivity; try discriminate H.
Qed.

Lemma max_deviation_positive (m : DirectionModifier) :
  m <> UTurn -> (0 < max_deviation_of m)%Q.
Proof. destruct m; intros H; try reflexivity. now contradiction H. Qed.

Lemma checked_div_nonzero (a b : Q) :
  ~ (b == 0)%Q -> checked_div a b = Some (a / b)%Q.
Proof.
  intros Hb. unfold checked_div.
  destruct (Qeq_bool b 0) eqn:E; [| reflexivity].
  apply Qeq_bool_eq in E. contradiction.
Qed.

(** The guard of [getTurnConfidence], as a proposition. *)
Lemma confidence_guard (instruction : TurnInstruction) :
  negb (isBasic (type instruction))
  || bool_decide (direction_modifier instruction = UTurn) = true
  <-> (isBasic (type instruction) = false
       \/ direction_modifier instruction = UTurn).
Proof.
  rewrite orb_true_iff, negb_true_iff, bool_decide_eq_true. tauto.
Qed.

Lemma getTurnConfidence_graded (angle : Q) (instruction : TurnInstruction) :
  isBasic (type instruction) = true ->
  direction_modifier instruction <> UTurn ->
  getTurnConfidence angle instruction
  = Some (1 - (getAngularPenalty angle (direction_modifier instruction)
               / max_deviation_of (direction_modifier instruction))
            * (getAngularPenalty angle (direction_modifier instruction)
               / max_deviation_of (direction_modifier instruction)))%Q.
Proof.
  intros Hbasic Hm. unfold getTurnConfidence.
  rewrite Hbasic. simpl.
  rewrite bool_decide_eq_false_2 by exact Hm.
  rewrite checked_div_nonzero; [reflexivity |].
  pose proof (max_deviation_positive _ Hm). lra.
Qed.

(** C4.  [getTurnConfidence] returns exactly 1 whenever the turn type is not
    basic or the modifier is UTurn, whatever the angle.  Otherwise it
    returns 1 - (penalty / tolerance)^2, where the penalty is the angular
    deviation of the angle from the ideal center of the modifier and the
    tolerance is the entry of the modifier in the tolerance table. *)
Theorem getTurnConfidence_one_or_graded
    (angle : Q) (instruction : TurnInstruction) :
  (isBasic (type instruction) = false
   \/ direction_modifier instruction = UTurn ->
   getTurnConfidence angle instruction = Some 1%Q)
  /\ (isBasic (type instruction) = true ->
      direction_modifier instruction <> UTurn ->
      getTurnConfidence angle instruction
      = Some (1 - (angularDeviation angle
                     (spec_ideal_center (direction_modifier instruction))
                   / spec_tolerance (direction_modifier instruction))
                * (angularDeviation angle
                     (spec_ideal_center (direction_modifier instruction))
                   / spec_tolerance (direction_modifier instruction)))%Q).
Proof.
  split.
  - intros Hg. apply confidence_guard in Hg.
    unfold getTurnConfidence. now rewrite Hg.
  - intros Hbasic Hm.
    rewrite (getTurnConfidence_graded _ _ Hbasic Hm).
    now rewrite getAngularPenalty_is_deviation, max_deviation_is_spec.
Qed.

(** C4 at work at 100 degrees: a non-basic turn, and a basic [Right] turn. *)
Lemma getTurnConfidence_one_or_graded_witness :
  getTurnConfidence 100 (mkTurnInstruction (OtherTurnType 7) Right) = Some 1%Q
  /\ getTurnConfidence 100 (mkTurnInstruction Turn Right)
     = Some (1 - (angularDeviation 100 90 / 50) * (angularDeviation 100 90 / 50))%Q.
Proof.
  split.
  - apply (proj1 (getTurnConfidence_one_or_graded 100
                    (mkTurnInstruction (OtherTurnType 7) Right))).
    left. reflexivity.
  - apply (proj2 (getTurnConfidence_one_or_graded 100
                    (mkTurnInstruction Turn Right))).
    + reflexivity.
    + discriminate.
Defined.

(** C9.  [getTurnConfidence] never divides by zero.  UTurn is the only
    modifier whose entry in [deviations] is 0, and the guard on non-basic
    types and UTurn modifiers returns before the division; past the guard
    the divisor is strictly positive, so the function has a result for
    every angle and every instruction. *)
Theorem getTurnConfidence_divisor_positive
    (angle : Q) (instruction : TurnInstruction) :
  is_Some (getTurnConfidence angle instruction)
  /\ (forall m : DirectionModifier, (max_deviation_of m == 0)%Q <-> m = UTurn)
  /\ (negb (isBasic (type instruction))
      || bool_decide (direction_modifier instruction = UTurn) = false ->
      (0 < max_deviation_of (direction_modifier instruction))%Q
      /\ checked_div
           (getAngularPenalty angle (direction_modifier instruction))
           (max_deviation_of (direction_modifier instruction))
         <> None).
Proof.
  assert (Hpast :
    negb (isBasic (type instruction))
    || bool_decide (direction_modifier instruction = UTurn) = false ->
    isBasic (type instruction) = true
    /\ direction_modifier instruction <> UTurn).
  { intros Hg. apply orb_false_elim in Hg as [Hb Hm].
    apply negb_false_iff in Hb. apply bool_decide_eq_false in Hm. tauto. }
  split; [| split].
  - destruct (negb (isBasic (type instruction))
              || bool_decide (direction_modifier instruction = UTurn)) eqn:Hg.
    + unfold getTurnConfidence. rewrite Hg. eauto.
    + destruct (Hpast eq_refl) as [Hb Hm].
      rewrite (getTurnConfidence_graded _ _ Hb Hm). eauto.
  - apply max_deviation_zero_iff.
  - intros Hg. destruct (Hpast Hg) as [Hb Hm].
    pose proof (max_deviation_positive _ Hm) as Hpos.
    split; [exact Hpos |].
    rewrite checked_div_nonzero; [discriminate | lra].
Qed.

(** C9 at work: past the guard with [Straight], the divisor is 20. *)
Lemma getTurnConfidence_divisor_positive_witness :
  (0 < max_deviation_of Straight)%Q
  /\ checked_div (getAngularPenalty 100 Straight) (max_deviation_of Straight)
     <> None.
Proof.
  apply (proj2 (proj2 (getTurnConfidence_divisor_positive 100
                         (mkTurnInstruction EndOfRoad Straight)))).
  reflexivity.
Defined.

(** ** Name changes *)

Lemma prefix_length (p s : string) :
  String.prefix p s = true -> (String.length p <= String.length s)%nat.
Proof.
  revert s. induction p as [| c p IH]; intros s H; simpl; [lia |].
  destruct s as [| d s]; simpl in *; [discriminate |].
  destruct (Ascii.ascii_dec c d); [| discriminate].
  specialize (IH s H). lia.
Qed.

Lemma prefix_refl (s : string) : String.prefix s s = true.
Proof.
  induction s as [| c s IH]; simpl; [reflexivity |].
  destruct (Ascii.ascii_dec c c); [exact IH | contradiction].
Qed.

(** An occurrence found by [String.index] lies inside the string. *)
Lemma index_bound (p s : string) (n : nat) :
  String.index 0 p s = Some n ->
  (n + String.length p <= String.length s)%nat.
Proof.
  revert n. induction s as [| d s IH]; intros n H; cbn [String.index] in H.
  - destruct p; [injection H as <-; simpl; lia | discriminate].
  - destruct (String.prefix p (String d s)) eqn:E.
    + injection H as <-. apply prefix_length in E. simpl in *. lia.
    + destruct (String.index 0 p s) as [k |] eqn:Ek; [| discriminate].
      injection H as <-. specialize (IH k eq_refl). simpl. lia.
Qed.

Lemma index_self (s : string) : String.index 0 s s = Some 0%nat.
Proof.
  destruct s as [| c s]; [reflexivity |].
  cbn [String.index]. now rewrite prefix_refl.
Qed.

(** A string always occurs in itself, at position 0. *)
Lemma find_self (s : string) : find s s = 0.
Proof. unfold find. now rewrite index_self. Qed.

(** [find_first_of] answers [npos] or the position of a character of the
    string. *)
Lemma find_first_of_cases (s : string) (c : ascii) :
  Z.of_nat (String.length s) < npos ->
  find_first_of s c = npos
  \/ 0 <= find_first_of s c < Z.of_nat (String.length s).
Proof.
  intros Hs. unfold find_first_of, find.
  destruct (String.index 0 (String c EmptyString) s) as [n |] eqn:E; [| now left].
  right. apply index_bound in E. simpl in E. lia.
Qed.

(** [split] never reads past the end of its argument: both calls of
    [substr] start inside the string. *)
Lemma split_total (name : string) :
  Z.of_nat (String.length name) < npos -> is_Some (split name).
Proof.
  intros Hs. unfold split.
  destruct (find_first_of_cases name "(" Hs) as [Hn | Hr].
  - rewrite Hn. simpl. eauto.
  - assert (Hne : (find_first_of name "(" =? npos) = false) by (apply Z.eqb_neq; lia).
    rewrite Hne. simpl negb. cbv iota.
    assert (Hw : wrap64 (find_first_of name "(" + 1) = find_first_of name "(" + 1).
    { unfold wrap64. apply Z.mod_small. unfold npos in *. lia. }
    rewrite Hw.
    assert (Hfirst : is_Some
              (if negb (find_first_of name "(" =? 0)
               then substr name 0 (wrap64 (find_first_of name "(" - 1))
               else Some EmptyString)).
    { destruct (negb _); [| eauto]. unfold substr.
      destruct (Z.of_nat (String.length name) <? 0) eqn:E; [| eauto].
      apply Z.ltb_lt in E. lia. }
    destruct Hfirst as [out_name ->]. simpl.
    unfold substr.
    destruct (Z.of_nat (String.length name) <? find_first_of name "(" + 1) eqn:E.
    + apply Z.ltb_lt in E. lia.
    + simpl. eauto.
Qed.

(** [requiresNameAnnounced] has a result on all strings a [std::string] can
    hold: it never raises [std::out_of_range]. *)
Lemma requiresNameAnnounced_total (from to : string) :
  Z.of_nat (String.length from) < npos ->
  Z.of_nat (String.length to) < npos ->
  is_Some (requiresNameAnnounced from to).
Proof.
  intros Hf Ht. unfold requiresNameAnnounced.
  destruct (split_total from Hf) as [[from_name from_ref] ->].
  destruct (split_total to Ht) as [[to_name to_ref] ->].
  simpl. eauto.
Qed.

(** A change from a name to the very same name is never announced. *)
Lemma requiresNameAnnounced_same (name : string) :
  Z.of_nat (String.length name) < npos ->
  requiresNameAnnounced name name = Some false.
Proof.
  intros Hs. unfold requiresNameAnnounced.
  destruct (split_total name Hs) as [[n r] ->]. simpl.
  rewrite bool_decide_eq_true_2 by reflexivity.
  rewrite find_self. simpl.
  now rewrite !orb_true_r.
Qed.

(** Once the name is gone the change is obvious, whatever the reference. *)
Lemma requiresNameAnnounced_removed (from name ref : string) :
  split from = Some (name, ref) ->
  name <> EmptyString ->
  requiresNameAnnounced from EmptyString = Some false.
Proof.
  intros Hsplit Hname. unfold requiresNameAnnounced.
  rewrite Hsplit. simpl. unfold empty.
  rewrite (bool_decide_eq_false_2 (name = EmptyString) Hname).
  rewrite (bool_decide_eq_true_2 (EmptyString = EmptyString) eq_refl).
  simpl. now destruct (bool_decide (ref = EmptyString)).
Qed.

(** A string without an opening parenthesis is all name. *)
Lemma split_plain (name : string) :
  find_first_of name "(" = npos -> split name = Some (name, EmptyString).
Proof. intros H. unfold split. now rewrite H. Qed.

(** Between two different names without references, the second one not
    empty, the change is announced. *)
Lemma requiresNameAnnounced_plain (from to : string) :
  find_first_of from "(" = npos ->
  find_first_of to "(" = npos ->
  from <> to ->
  to <> EmptyString ->
  requiresNameAnnounced from to = Some true.
Proof.
  intros Hf Ht Hne Hto. unfold requiresNameAnnounced.
  rewrite (split_plain _ Hf), (split_plain _ Ht). simpl. unfold empty.
  rewrite (bool_decide_eq_false_2 (to = EmptyString) Hto).
  rewrite (bool_decide_eq_false_2 (from = to) Hne).
  simpl. now destruct (bool_decide (from = EmptyString)).
Qed.

(** C8.  A change from "Main St (A1)" to "Main St (A1)" is not announced;
    a change from "Main St" to "Oak St" is; a change from "Main St (A1)" to
    the empty string is not. *)
Theorem requiresNameAnnounced_examples :
  requiresNameAnnounced "Main St (A1)" "Main St (A1)" = Some false
  /\ requiresNameAnnounced "Main St" "Oak St" = Some true
  /\ requiresNameAnnounced "Main St (A1)" "" = Some false.
Proof.
  split; [apply requiresNameAnnounced_same; reflexivity |].
  split.
  - apply requiresNameAnnounced_plain; try reflexivity; discriminate.
  - apply (requiresNameAnnounced_removed _ "Main St" "A1");
      [reflexivity | discriminate].
Qed.

(** ** Representative coordinate *)

(** The interpolation factor is clamped into [0,1]. *)
Lemma getFactor_clamped (first_distance second_distance : Q) :
  (0 <= getFactor first_distance second_distance <= 1)%Q.
Proof.
  unfold getFactor. split.
  - apply Q.le_max_l.
  - apply Q.max_lub; [lra | apply Q.le_min_r].
Qed.

Section ShortEdges.

Variable haversineDistance : Coordinate.t -> Coordinate.t -> Q.
Variable interpolateLinear : Q -> Coordinate.t -> Coordinate.t -> Coordinate.t.
Hypothesis haversineDistance_nonneg :
  forall a b, (0 <= haversineDistance a b)%Q.



End ShortEdges.

(** C7.  When the edge has no stored compressed geometry,
    [getRepresentativeCoordinate] returns the coordinate of the node the
    traversal ends at, [final_node], which is [from_node] or [to_node] as
    the reversed flag says and is not the node the traversal starts from;
    with [from_node] at (0,0), [to_node] at (0,1) and no reversal it
    returns (0,1). *)
Theorem getRepresentativeCoordinate_uncompressed
    (haversineDistance : Coordinate.t -> Coordinate.t -> Q)
    (interpolateLinear : Q -> Coordinate.t -> Coordinate.t -> Coordinate.t)
    (from_node to_node : NodeID) (via_edge_id : EdgeID)
    (traverse_in_reverse : bool)
    (compressed_geometries : gmap N (list CompressedEdge.t))
    (query_nodes : list QueryNode.t) :
  CompressedEdgeContainer.HasEntryForID compressed_geometries via_edge_id
  = false ->
  getRepresentativeCoordinate haversineDistance interpolateLinear
    from_node to_node via_edge_id traverse_in_reverse
    compressed_geometries query_nodes
  = extractCoordinateFromNode
      <$> query_node_at query_nodes
            (final_node traverse_in_reverse from_node to_node)
  /\ (from_node <> to_node ->
      final_node traverse_in_reverse from_node to_node
      <> base_node_id traverse_in_reverse from_node to_node)
  /\ getRepresentativeCoordinate haversineDistance interpolateLinear
       0%N 1%N via_edge_id false compressed_geometries
       [QueryNode.mk 0 0 0; QueryNode.mk 0 1 1]
     = Some (Coordinate.mk 0 1).
Proof.
  intros Hno. unfold getRepresentativeCoordinate. rewrite Hno. simpl negb.
  cbv iota. split; [| split].
  - unfold final_node. now destruct traverse_in_reverse.
  - unfold final_node, base_node_id. destruct traverse_in_reverse; congruence.
  - reflexivity.
Qed.

(** C7 at work: an empty geometry store, nodes 0 and 1 at (0,0) and (0,1). *)
Lemma getRepresentativeCoordinate_uncompressed_witness :
  getRepresentativeCoordinate (fun _ _ => 0%Q) (fun _ a _ => a)
    0%N 1%N 5%N false ∅ [QueryNode.mk 0 0 0; QueryNode.mk 0 1 1]
  = Some (Coordinate.mk 0 1).
Proof.
  apply (getRepresentativeCoordinate_uncompressed (fun _ _ => 0%Q)
           (fun _ a _ => a) 0%N 1%N 5%N false ∅
           [QueryNode.mk 0 0 0; QueryNode.mk 0 1 1]).
  reflexivity.
Defined.

(** * Further properties *)

(** ** Mirroring and shifting *)

(** X1.  Mirroring a modifier twice gives the modifier back, and mirroring
    exchanges the right-hand and the left-hand side. *)
Theorem mirrorDirectionModifier_involution_swaps_sides (m : DirectionModifier) :
  mirrorDirectionModifier (mirrorDirectionModifier m) = m
  /\ (is_right (mirrorDirectionModifier m) <-> is_left m)
  /\ (is_left (mirrorDirectionModifier m) <-> is_right m).
Proof.
  unfold is_right, is_left. destruct m; simpl; repeat split; intros; lia.
Qed.

(** X2.  Mirroring turns a clockwise shift into a counter-clockwise one and
    back: the shiftability tables are mirror images of each other. *)
Theorem mirror_exchanges_shifts (m : DirectionModifier) :
  mirrorDirectionModifier (shiftCW m) = shiftCCW (mirrorDirectionModifier m)
  /\ mirrorDirectionModifier (shiftCCW m) = shiftCW (mirrorDirectionModifier m)
  /\ mirrorDirectionModifier (forcedShiftCW m)
     = forcedShiftCCW (mirrorDirectionModifier m)
  /\ flag_at detail.shiftable_cw m
     = flag_at detail.shiftable_ccw (mirrorDirectionModifier m).
Proof. destruct m; repeat split. Qed.

(** X3.  The two forced shifts are inverse to each other, each moves every
    modifier, and eight forced steps in one rotation come back to the
    start. *)
Theorem forced_shifts_inverse (m : DirectionModifier) :
  forcedShiftCW (forcedShiftCCW m) = m
  /\ forcedShiftCCW (forcedShiftCW m) = m
  /\ forcedShiftCW m <> m
  /\ forcedShiftCCW m <> m
  /\ Nat.iter 8 forcedShiftCW m = m
  /\ Nat.iter 8 forcedShiftCCW m = m.
Proof. destruct m; repeat split; discriminate. Qed.

(** X4.  A clockwise shift followed by a counter-clockwise one gives the
    modifier back except for [SharpRight] and [SlightLeft], which the first
    shift leaves alone and the second one moves; in the other order the
    exceptions are [SlightRight] and [SharpLeft]. *)
Theorem shift_round_trips (m : DirectionModifier) :
  (shiftCCW (shiftCW m) = m <-> m <> SharpRight /\ m <> SlightLeft)
  /\ (shiftCW (shiftCCW m) = m <-> m <> SlightRight /\ m <> SharpLeft).
Proof.
  destruct m; (split; split); intros H;
    try (split; discriminate); try reflexivity;
    try (vm_compute in H; discriminate H);
    destruct H as [H1 H2]; congruence.
Qed.

(** X5.  Neither shift takes a turn to the other side: a right-hand
    modifier stays on the right, a left-hand one on the left, and [UTurn]
    and [Straight] are neither reached nor left. *)
Theorem shifts_keep_side (m : DirectionModifier) (resolve_cw : bool) :
  (is_right (shifted_in resolve_cw m) <-> is_right m)
  /\ (is_left (shifted_in resolve_cw m) <-> is_left m)
  /\ (shifted_in resolve_cw m = UTurn <-> m = UTurn)
  /\ (shifted_in resolve_cw m = Straight <-> m = Straight).
Proof.
  unfold is_right, is_left.
  destruct resolve_cw, m;
    match goal with
    | |- context [shifted_in ?b ?x] =>
        let v := eval vm_compute in (shifted_in b x) in
        change (shifted_in b x) with v
    end;
    simpl; intuition (try lia; try congruence).
Qed.

(** X6.  [isDistinct] does not depend on the order of its arguments. *)
Theorem isDistinct_sym (a b : DirectionModifier) :
  isDistinct a b = isDistinct b a.
Proof. destruct a, b; reflexivity. Qed.

(** ** Predicates on turns *)

Lemma isConflict_refl (a : TurnInstruction) : isConflict a a = true.
Proof.
  unfold isConflict. now rewrite !bool_decide_eq_true_2.
Qed.

Lemma isConflict_true (a b : TurnInstruction) :
  isConflict a b = true
  <-> a = b \/ (isStraight a = true /\ isStraight b = true).
Proof.
  unfold isConflict.
  rewrite orb_true_iff, !andb_true_iff, !bool_decide_eq_true.
  destruct a as [ta ma], b as [tb mb]; simpl.
  split; (intros [H | H]; [left | right; exact H]).
  - destruct H as [-> ->]. reflexivity.
  - injection H as -> ->. split; reflexivity.
Qed.

(** X7.  Being in conflict is an equivalence relation on turn
    instructions: every instruction conflicts with itself, conflicts are
    mutual, and two instructions in conflict with a third are in conflict
    with each other. *)
Theorem isConflict_equivalence (a b c : TurnInstruction) :
  isConflict a a = true
  /\ isConflict a b = isConflict b a
  /\ (isConflict a b = true -> isConflict b c = true -> isConflict a c = true).
Proof.
  split; [apply isConflict_refl |]. split.
  - apply eq_true_iff_eq. rewrite !isConflict_true. intuition congruence.
  - rewrite !isConflict_true. intuition congruence.
Qed.

Lemma isConflict_equivalence_witness :
  isConflict (mkTurnInstruction NoTurn Straight) (mkTurnInstruction EndOfRoad Straight)
  = true.
Proof.
  apply (proj2 (proj2 (isConflict_equivalence
                         (mkTurnInstruction NoTurn Straight)
                         (mkTurnInstruction Turn Straight)
                         (mkTurnInstruction EndOfRoad Straight))));
    reflexivity.
Defined.

(** X8.  A turn is at most one of U-turn, sharp and slight; a straight
    turn is a slight one; and only a turn of basic type can be a U-turn or
    sharp. *)
Theorem turn_kinds_exclusive (turn : TurnInstruction) :
  (isUturn turn && isSharpTurn turn = false)
  /\ (isUturn turn && isSlightTurn turn = false)
  /\ (isSharpTurn turn && isSlightTurn turn = false)
  /\ (isStraight turn = true -> isSlightTurn turn = true)
  /\ (isUturn turn || isSharpTurn turn = true -> isBasic (type turn) = true)
  /\ (canBeSuppressed (type turn) = true -> isBasic (type turn) = true).
Proof.
  destruct turn as [t m].
  unfold isUturn, isSharpTurn, isSlightTurn, isStraight, canBeSuppressed; simpl.
  destruct (isBasic t) eqn:Hb, m; simpl; repeat split; intros H;
    try reflexivity; try discriminate H;
    destruct (bool_decide (t = NoTurn)); simpl in *;
    try reflexivity; try discriminate H.
  all: try (destruct (bool_decide (t = Turn)) eqn:Ht; [| discriminate H];
            apply bool_decide_eq_true in Ht; subst t; discriminate Hb).
Qed.

Lemma turn_kinds_exclusive_witness :
  isSlightTurn (mkTurnInstruction NoTurn Straight) = true.
Proof.
  apply (proj1 (proj2 (proj2 (proj2 (turn_kinds_exclusive
                                       (mkTurnInstruction NoTurn Straight)))))).
  reflexivity.
Defined.

(** ** More on conflict resolution *)

(** What a successful [resolve] has done. *)
Lemma resolve_success (candidate neighbor : TurnInstruction) (cw : bool) :
  (resolve candidate neighbor cw).1 = true ->
  (resolve candidate neighbor cw).2
  = set_direction_modifier candidate
      (shifted_in cw (direction_modifier candidate))
  /\ shifted_in cw (direction_modifier candidate)
     <> direction_modifier neighbor
  /\ shifted_in cw (direction_modifier candidate)
     <> direction_modifier candidate.
Proof.
  intros Hok.
  destruct (blocked_dec candidate neighbor cw) as [Hb | Hb].
  - rewrite (resolve_blocked _ _ _ Hb) in Hok. discriminate Hok.
  - rewrite (resolve_free _ _ _ Hb). unfold blocked in Hb. simpl. tauto.
Qed.

Lemma shifted_in_Straight (cw : bool) (m : DirectionModifier) :
  shifted_in cw m = Straight -> m = Straight.
Proof. destruct cw, m; intros H; try reflexivity; discriminate H. Qed.

(** X9.  After a successful [resolve] the candidate is no longer in
    conflict with the neighbor; it has kept its turn type and carries a
    modifier different from the one it had. *)
Theorem resolve_success_ends_conflict
    (candidate neighbor : TurnInstruction) (resolve_cw : bool) :
  (resolve candidate neighbor resolve_cw).1 = true ->
  isConflict (resolve candidate neighbor resolve_cw).2 neighbor = false
  /\ type (resolve candidate neighbor resolve_cw).2 = type candidate
  /\ direction_modifier (resolve candidate neighbor resolve_cw).2
     <> direction_modifier candidate.
Proof.
  intros Hok. destruct (resolve_success _ _ _ Hok) as (-> & Hn & Hc).
  split; [| split; [reflexivity | exact Hc]].
  apply not_true_is_false. rewrite isConflict_true. intros [H | [H _]].
  - apply Hn. now rewrite <- H.
  - unfold isStraight in H. apply andb_true_iff in H as [_ H].
    apply bool_decide_eq_true in H. simpl in H.
    apply Hc. rewrite H. symmetry. now apply (shifted_in_Straight resolve_cw).
Qed.

Lemma resolve_success_ends_conflict_witness :
  isConflict
    (resolve (mkTurnInstruction Turn Right) (mkTurnInstruction Turn Right) false).2
    (mkTurnInstruction Turn Right)
  = false.
Proof.
  apply (proj1 (resolve_success_ends_conflict (mkTurnInstruction Turn Right)
                  (mkTurnInstruction Turn Right) false eq_refl)).
Defined.

(** No modifier can be shifted three times in the same rotation. *)
Lemma shifted_in_thrice (cw : bool) (m : DirectionModifier) :
  shifted_in cw m <> m ->
  shifted_in cw (shifted_in cw m) <> shifted_in cw m ->
  shifted_in cw (shifted_in cw (shifted_in cw m))
  = shifted_in cw (shifted_in cw m).
Proof.
  destruct cw, m; intros H1 H2; try reflexivity;
    try (now contradiction H1); now contradiction H2.
Qed.

(** X10.  Whatever the neighbors are, [resolve] succeeds at most twice in a
    row on the same instruction in the same rotation: after two
    successful steps the third attempt fails and changes nothing. *)
Theorem resolve_at_most_twice
    (candidate n1 n2 n3 : TurnInstruction) (resolve_cw : bool) :
  (resolve candidate n1 resolve_cw).1 = true ->
  (resolve (resolve candidate n1 resolve_cw).2 n2 resolve_cw).1 = true ->
  resolve (resolve (resolve candidate n1 resolve_cw).2 n2 resolve_cw).2
    n3 resolve_cw
  = (false, (resolve (resolve candidate n1 resolve_cw).2 n2 resolve_cw).2).
Proof.
  intros H1 H2.
  destruct (resolve_success _ _ _ H1) as (E1 & _ & Hc1).
  rewrite E1 in H2 |- *.
  destruct (resolve_success _ _ _ H2) as (E2 & _ & Hc2).
  rewrite E2. simpl in Hc2 |- *.
  apply resolve_blocked. right. simpl.
  now apply shifted_in_thrice.
Qed.

Lemma resolve_at_most_twice_witness :
  resolve (mkTurnInstruction Turn SharpRight) (mkTurnInstruction Turn Left) true
  = (false, mkTurnInstruction Turn SharpRight).
Proof.
  apply (resolve_at_most_twice (mkTurnInstruction Turn SlightRight)
           (mkTurnInstruction Turn SlightRight)
           (mkTurnInstruction Turn Left) (mkTurnInstruction Turn Left) true);
    reflexivity.
Defined.

(** X11.  When [first] and [second] carry the same modifier and
    [resolveTransitive] succeeds, both have been moved by the same step:
    they still carry the same modifier, different from the old one, and
    [second] is no longer in conflict with [third]. *)
Theorem resolveTransitive_moves_pair_together
    (first second third : TurnInstruction) (resolve_cw : bool) :
  direction_modifier first = direction_modifier second ->
  (resolveTransitive first second third resolve_cw).1.1 = true ->
  direction_modifier (resolveTransitive first second third resolve_cw).1.2
  = direction_modifier (resolveTransitive first second third resolve_cw).2
  /\ direction_modifier (resolveTransitive first second third resolve_cw).1.2
     <> direction_modifier first
  /\ isConflict (resolveTransitive first second third resolve_cw).2 third
     = false.
Proof.
  intros Hsame Hok.
  assert (Hres : (resolve second third resolve_cw).1 = true).
  { unfold resolveTransitive in Hok.
    destruct (resolve second third resolve_cw) as [[] s]; [reflexivity |].
    discriminate Hok. }
  pose proof (resolve_success_ends_conflict _ _ _ Hres) as (Hconf & _ & _).
  destruct (resolve_success _ _ _ Hres) as (E & _ & Hc).
  unfold resolveTransitive in *.
  destruct (resolve second third resolve_cw) as [changed second'].
  simpl in Hres, E, Hconf. subst changed second'. simpl.
  rewrite Hsame. unfold shifted_in in *.
  destruct resolve_cw; auto.
Qed.

Lemma resolveTransitive_moves_pair_together_witness :
  direction_modifier
    (resolveTransitive (mkTurnInstruction Turn Left) (mkTurnInstruction Turn Left)
       (mkTurnInstruction Turn Left) false).1.2
  = direction_modifier
      (resolveTransitive (mkTurnInstruction Turn Left) (mkTurnInstruction Turn Left)
         (mkTurnInstruction Turn Left) false).2.
Proof.
  apply (proj1 (resolveTransitive_moves_pair_together
                  (mkTurnInstruction Turn Left) (mkTurnInstruction Turn Left)
                  (mkTurnInstruction Turn Left) false eq_refl eq_refl)).
Defined.

(** ** More on angles *)

(** X12.  On [0,360) the classification is monotone: a larger angle never
    gets a modifier of smaller index. *)
Theorem getTurnDirection_monotone (a b : Q) :
  (0 <= a)%Q -> (a <= b)%Q -> (b < 360)%Q ->
  modifier_index (getTurnDirection a) <= modifier_index (getTurnDirection b).
Proof.
  intros H0 Hab Hb.
  pose proof (getTurnDirection_in_band a) as Ha'.
  pose proof (getTurnDirection_in_band b) as Hb'.
  destruct (getTurnDirection a), (getTurnDirection b); simpl in *;
    try lia; exfalso; lra.
Qed.

Lemma getTurnDirection_monotone_witness :
  modifier_index (getTurnDirection 100) <= modifier_index (getTurnDirection 200).
Proof.
  apply (getTurnDirection_monotone 100 200); lra.
Defined.

(** X13.  Reflecting an angle at the straight direction mirrors its
    modifier, except on the two overlaps of the bands: the classification
    of [360 - angle] is the mirror image of that of [angle] exactly when
    [angle] lies neither in [165,170) nor in (190,195]. *)
Theorem getTurnDirection_mirror (angle : Q) :
  getTurnDirection (360 - angle) = mirrorDirectionModifier (getTurnDirection angle)
  <-> ~ ((165 <= angle < 170)%Q \/ (190 < angle <= 195)%Q).
Proof.
  pose proof (getTurnDirection_in_band angle) as Ha.
  pose proof (getTurnDirection_in_band (360 - angle)) as Hm.
  split.
  - intros E. rewrite E in Hm.
    destruct (getTurnDirection angle); simpl in *; lra.
  - intros Hout. apply getTurnDirection_band_iff.
    destruct (getTurnDirection angle); simpl in *; lra.
Qed.

(** ** More on confidence *)

(** The sign of [1 - (p/t)^2] for a non-negative penalty [p] and a positive
    tolerance [t]. *)
Lemma graded_confidence_sign (p t : Q) :
  (0 <= p)%Q -> (0 < t)%Q ->
  ((1 - (p / t) * (p / t) <= 1)%Q)
  /\ ((0 <= 1 - (p / t) * (p / t))%Q <-> (p <= t)%Q)
  /\ ((1 - (p / t) * (p / t) < 0)%Q <-> (t < p)%Q).
Proof.
  intros Hp Ht.
  assert (Hr : (0 <= p / t)%Q).
  { apply Qle_shift_div_l; [exact Ht | lra]. }
  assert (Hle : (p / t <= 1)%Q <-> (p <= t)%Q).
  { split; intros H.
    - apply (Qmult_le_compat_r _ _ t) in H; [| lra].
      rewrite Qmult_1_l in H.
      assert (E : (p / t * t == p)%Q) by (field; lra).
      now rewrite E in H.
    - apply Qle_shift_div_r; [exact Ht | lra]. }
  set (r := (p / t)%Q) in *.
  split; [nra |].
  split; split; intros H.
  - apply Hle. destruct (Qlt_le_dec 1 r); [exfalso; nra | assumption].
  - apply Hle in H. nra.
  - destruct (Qlt_le_dec t p); [assumption |].
    assert (r <= 1)%Q by (apply Hle; assumption). exfalso. nra.
  - destruct (Qlt_le_dec 1 r); [nra |].
    assert (p <= t)%Q by (apply Hle; assumption). exfalso. lra.
Qed.

Lemma getAngularPenalty_nonneg (angle : Q) (m : DirectionModifier) :
  is_bearing angle -> (0 <= getAngularPenalty angle m)%Q.
Proof.
  intros Ha. unfold getAngularPenalty.
  apply angularDeviation_range; [| exact Ha].
  unfold is_bearing. destruct m; simpl; lra.
Qed.

(** X15.  The confidence never exceeds 1.  For a bearing and a basic turn
    other than a U-turn it is non-negative exactly when the angle deviates
    from the ideal center of the modifier by no more than the tolerance of
    the modifier, and negative beyond. *)
Theorem getTurnConfidence_bounds
    (angle : Q) (instruction : TurnInstruction) (confidence : Q) :
  is_bearing angle ->
  getTurnConfidence angle instruction = Some confidence ->
  (confidence <= 1)%Q
  /\ (isBasic (type instruction) = true ->
      direction_modifier instruction <> UTurn ->
      ((0 <= confidence)%Q
       <-> (getAngularPenalty angle (direction_modifier instruction)
            <= max_deviation_of (direction_modifier instruction))%Q)).
Proof.
  intros Ha Hc.
  pose proof (getAngularPenalty_nonneg angle (direction_modifier instruction) Ha)
    as Hp.
  destruct (isBasic (type instruction)) eqn:Hb.
  - destruct (decide (direction_modifier instruction = UTurn)) as [Hu | Hu].
    + unfold getTurnConfidence in Hc.
      rewrite (bool_decide_eq_true_2 _ Hu), orb_true_r in Hc.
      injection Hc as <-. split; [lra | contradiction].
    + rewrite (getTurnConfidence_graded _ _ Hb Hu) in Hc. injection Hc as <-.
      pose proof (max_deviation_positive _ Hu) as Ht.
      destruct (graded_confidence_sign _ _ Hp Ht) as (H1 & H2 & _).
      split; [exact H1 | intros _ _; exact H2].
  - unfold getTurnConfidence in Hc. rewrite Hb in Hc. simpl in Hc.
    injection Hc as <-. split; [lra | discriminate].
Qed.

Lemma getTurnConfidence_bounds_witness :
  ((1 - (getAngularPenalty 100 Right / max_deviation_of Right)
        * (getAngularPenalty 100 Right / max_deviation_of Right)) <= 1)%Q.
Proof.
  apply (proj1 (getTurnConfidence_bounds 100 (mkTurnInstruction Turn Right) _
                  ltac:(unfold is_bearing; lra) eq_refl)).
Defined.

(** X16.  The classification and the confidence do not use the same bands:
    for a basic turn carrying the modifier [getTurnDirection] gives its
    angle, the confidence is negative exactly for the angles strictly
    between 165 and 170 degrees, which are classified as slight right turns
    but lie more than 30 degrees from the ideal slight right turn. *)
Theorem getTurnConfidence_of_classification
    (angle : Q) (t : TurnType) (confidence : Q) :
  isBasic t = true ->
  getTurnConfidence angle (mkTurnInstruction t (getTurnDirection angle))
  = Some confidence ->
  ((confidence < 0)%Q <-> (165 < angle < 170)%Q).
Proof.
  intros Hb Hc.
  pose proof (getTurnDirection_in_band angle) as Hband.
  destruct (decide (getTurnDirection angle = UTurn)) as [Hu | Hu].
  - unfold getTurnConfidence in Hc. simpl in Hc.
    rewrite (bool_decide_eq_true_2 _ Hu), orb_true_r in Hc.
    injection Hc as <-. rewrite Hu in Hband. simpl in Hband. lra.
  - assert (Hbearing : is_bearing angle).
    { unfold is_bearing. destruct (getTurnDirection angle);
        simpl in Hband; try lra. now contradiction Hu. }
    rewrite (getTurnConfidence_graded angle
               (mkTurnInstruction t (getTurnDirection angle)) Hb Hu) in Hc.
    simpl in Hc. injection Hc as <-.
    pose proof (getAngularPenalty_nonneg angle (getTurnDirection angle) Hbearing)
      as Hp.
    pose proof (max_deviation_positive _ Hu) as Ht.
    destruct (graded_confidence_sign _ _ Hp Ht) as (_ & _ & ->).
    rewrite getAngularPenalty_is_deviation, max_deviation_is_spec.
    unfold angularDeviation.
    destruct (getTurnDirection angle);
      cbn [band spec_ideal_center spec_tolerance] in *;
      try (now contradiction Hu);
      match goal with
      | |- context [Qmin ?x ?y] =>
          destruct (Q.min_spec x y) as [[? ->] | [? ->]]
      end;
      match goal with
      | H : context [Qabs ?x] |- _ =>
          revert H; apply (Qabs_case x); intros ? ?
      end; lra.
Qed.

Lemma getTurnConfidence_of_classification_witness :
  ((1 - (getAngularPenalty 168 SlightRight / max_deviation_of SlightRight)
        * (getAngularPenalty 168 SlightRight / max_deviation_of SlightRight)) < 0)%Q.
Proof.
  apply (proj2 (getTurnConfidence_of_classification 168 Turn _ eq_refl eq_refl)).
  lra.
Defined.

(** ** Discrete angles *)

Lemma truncate_nonneg (x : Q) :
  (0 <= x)%Q ->
  truncate x = Qfloor x /\ 0 <= Qfloor x
  /\ (inject_Z (Qfloor x) <= x < inject_Z (Qfloor x) + 1)%Q.
Proof.
  intros Hx. unfold truncate.
  assert (E : Qltb x 0 = false) by (apply Qltb_false; exact Hx).
  rewrite E. split; [reflexivity |].
  split.
  - change 0 with (Qfloor 0). now apply Qfloor_resp_le.
  - split; [apply Qfloor_le |].
    pose proof (Qlt_floor x) as H. rewrite inject_Z_plus in H. exact H.
Qed.

Lemma truncate_neg (x : Q) :
  (x < 0)%Q ->
  truncate x = Qceiling x /\ Qceiling x <= 0
  /\ (inject_Z (Qceiling x) - 1 < x <= inject_Z (Qceiling x))%Q.
Proof.
  intros Hx. unfold truncate.
  assert (E : Qltb x 0 = true) by (apply Qltb_true; exact Hx).
  rewrite E. split; [reflexivity |].
  split.
  - change 0 with (Qceiling 0). apply Qceiling_resp_le. lra.
  - split; [| apply Qle_ceiling].
    pose proof (Qceiling_lt x) as H.
    assert (E' : (inject_Z (Qceiling x - 1) == inject_Z (Qceiling x) - 1)%Q).
    { unfold Z.sub. rewrite inject_Z_plus. reflexivity. }
    rewrite E' in H. exact H.
Qed.

Lemma inject_Z_le_iff (a b : Z) : (inject_Z a <= inject_Z b)%Q <-> a <= b.
Proof. now rewrite <- Zle_Qle. Qed.

Lemma inject_Z_lt_iff (a b : Z) : (inject_Z a < inject_Z b)%Q <-> a < b.
Proof. now rewrite <- Zlt_Qlt. Qed.

(** The quotient by the step and the product with it undo each other. *)
Lemma step_quotient (x : Q) :
  (x / discrete_angle_step_size * discrete_angle_step_size == x)%Q.
Proof. unfold discrete_angle_step_size. field. Qed.

Lemma step_product (x : Q) :
  (x * discrete_angle_step_size / discrete_angle_step_size == x)%Q.
Proof. unfold discrete_angle_step_size. field. Qed.

(** X17.  Every bucket survives the round trip through its angle:
    discretizing [angleFromDiscreteAngle b] gives [b] back, for each of the
    256 buckets. *)
Theorem discretizeAngle_angleFromDiscreteAngle (b : DiscreteAngle) :
  0 <= b <= 255 ->
  discretizeAngle (angleFromDiscreteAngle b) = Some b.
Proof.
  intros Hb. unfold discretizeAngle, angleFromDiscreteAngle, to_uint8.
  assert (Ht : truncate (inject_Z b * discrete_angle_step_size
                         / discrete_angle_step_size) = b).
  { assert (H0 : (0 <= inject_Z b * discrete_angle_step_size
                       / discrete_angle_step_size)%Q).
    { rewrite step_product. change 0%Q with (inject_Z 0).
      apply (proj2 (inject_Z_le_iff _ _)). lia. }
    destruct (truncate_nonneg _ H0) as (-> & _ & _).
    rewrite step_product. apply Qfloor_Z. }
  rewrite Ht.
  assert (E : (0 <=? b) && (b <=? 255) = true).
  { apply andb_true_iff. split; apply Z.leb_le; lia. }
  now rewrite E.
Qed.

Lemma discretizeAngle_angleFromDiscreteAngle_witness :
  discretizeAngle (angleFromDiscreteAngle 255) = Some 255.
Proof.
  apply (discretizeAngle_angleFromDiscreteAngle 255). lia.
Defined.

(** X18.  Discretizing loses less than one step: an angle in [0,360) has a
    bucket between 0 and 255, and the angle of that bucket is at most the
    angle and less than one step below it. *)
Theorem angleFromDiscreteAngle_discretizeAngle (angle : Q) :
  (0 <= angle < 360)%Q ->
  exists b : DiscreteAngle,
    discretizeAngle angle = Some b
    /\ 0 <= b <= 255
    /\ (angleFromDiscreteAngle b <= angle
        < angleFromDiscreteAngle b + discrete_angle_step_size)%Q.
Proof.
  intros Ha. unfold discretizeAngle, to_uint8, angleFromDiscreteAngle.
  set (x := (angle / discrete_angle_step_size)%Q).
  assert (Hx : (x * discrete_angle_step_size == angle)%Q) by apply step_quotient.
  assert (Hstep : (discrete_angle_step_size == 360 / 256)%Q) by reflexivity.
  assert (Hxa : (x * 360 == angle * 256)%Q)
    by (unfold x; rewrite Hstep; field).
  clearbody x.
  assert (Hx0 : (0 <= x)%Q) by (clear Hx Hstep; lra).
  assert (Hx256 : (x < 256)%Q) by (clear Hx Hstep; lra).
  destruct (truncate_nonneg x Hx0) as (-> & Hf0 & Hfl & Hfu).
  assert (Hf255 : Qfloor x <= 255).
  { assert (H : (inject_Z (Qfloor x) < inject_Z 256)%Q).
    { change (inject_Z 256) with 256%Q. lra. }
    apply (proj1 (inject_Z_lt_iff _ _)) in H. lia. }
  exists (Qfloor x).
  assert (E : (0 <=? Qfloor x) && (Qfloor x <=? 255) = true).
  { apply andb_true_iff. split; apply Z.leb_le; lia. }
  rewrite E. split; [reflexivity |]. split; [lia |].
  rewrite Hstep.
  assert (Hb : (inject_Z (Qfloor x) * (360 / 256)
                == inject_Z (Qfloor x) * 360 / 256)%Q) by field.
  rewrite Hb. clear Hb Hx Hstep.
  set (f := inject_Z (Qfloor x)) in *. clearbody f.
  assert (Hq : (f * 360 / 256 == f * (45 # 32))%Q) by field.
  assert (Hs : (360 / 256 == 45 # 32)%Q) by reflexivity.
  rewrite Hq, Hs. lra.
Qed.

Lemma angleFromDiscreteAngle_discretizeAngle_witness :
  exists b : DiscreteAngle,
    discretizeAngle 90 = Some b
    /\ 0 <= b <= 255
    /\ (angleFromDiscreteAngle b <= 90
        < angleFromDiscreteAngle b + discrete_angle_step_size)%Q.
Proof.
  apply (angleFromDiscreteAngle_discretizeAngle 90). lra.
Defined.

(** X19.  An angle has a bucket exactly when it lies strictly between minus
    one step and 360 degrees.  In particular 360 itself has none: its
    quotient by the step is 256, which does not fit into 8 bits. *)
Theorem discretizeAngle_defined (angle : Q) :
  (is_Some (discretizeAngle angle)
   <-> (- discrete_angle_step_size < angle < 360)%Q)
  /\ discretizeAngle 360 = None.
Proof.
  split; [| reflexivity].
  unfold discretizeAngle, to_uint8.
  set (x := (angle / discrete_angle_step_size)%Q).
  assert (Hx : (x * discrete_angle_step_size == angle)%Q) by apply step_quotient.
  assert (Hstep : (discrete_angle_step_size == 360 / 256)%Q) by reflexivity.
  assert (Hxa : (x * 360 == angle * 256)%Q)
    by (unfold x; rewrite Hstep; field).
  assert (Hs : (discrete_angle_step_size == 45 # 32)%Q) by reflexivity.
  rewrite Hs. clearbody x. clear Hx Hstep Hs.
  destruct (Qlt_le_dec x 0) as [Hneg | Hpos].
  - destruct (truncate_neg x Hneg) as (-> & Hc0 & Hcl & Hcu).
    destruct ((0 <=? Qceiling x) && (Qceiling x <=? 255)) eqn:E.
    + apply andb_true_iff in E as [E1 E2]. apply Z.leb_le in E1.
      assert (Hc : Qceiling x = 0) by lia. rewrite Hc in Hcl.
      change (inject_Z 0) with 0%Q in Hcl.
      split; [intros _; lra | eauto].
    + split; [intros [? H]; discriminate H |].
      intros Hr. exfalso.
      assert (Hxm : (-1 < x)%Q) by lra.
      assert (H : (inject_Z (-1) < inject_Z (Qceiling x))%Q).
      { change (inject_Z (-1)) with (-1)%Q. lra. }
      apply (proj1 (inject_Z_lt_iff _ _)) in H.
      assert (Hc : Qceiling x = 0) by lia.
      rewrite Hc in E. discriminate E.
  - destruct (truncate_nonneg x Hpos) as (-> & Hf0 & Hfl & Hfu).
    destruct ((0 <=? Qfloor x) && (Qfloor x <=? 255)) eqn:E.
    + apply andb_true_iff in E as [_ E2]. apply Z.leb_le in E2.
      apply (proj2 (inject_Z_le_iff _ _)) in E2. change (inject_Z 255) with 255%Q in E2.
      split; [intros _; lra | eauto].
    + split; [intros [? H]; discriminate H |].
      intros Hr. exfalso.
      assert (H : (inject_Z (Qfloor x) < inject_Z 256)%Q).
      { change (inject_Z 256) with 256%Q. lra. }
      apply (proj1 (inject_Z_lt_iff _ _)) in H.
      apply andb_false_iff in E as [E | E]; apply Z.leb_gt in E; lia.
Qed.

(** ** Road classes and forks *)

Lemma getPriority_defined (road_class : FunctionalRoadClass) :
  is_Some (getPriority road_class) <-> (road_class < 16)%N.
Proof.
  unfold getPriority. rewrite lookup_lt_is_Some. simpl. lia.
Qed.

(** The priorities by class: the table, read through [getPriority]. *)
Lemma getPriority_cases (road_class : FunctionalRoadClass) (p : Z) :
  getPriority road_class = Some p ->
  In (road_class, p)
    [(0%N, 10); (1%N, 0); (2%N, 10); (3%N, 2); (4%N, 10); (5%N, 4);
     (6%N, 10); (7%N, 6); (8%N, 10); (9%N, 8); (10%N, 10); (11%N, 11);
     (12%N, 10); (13%N, 12); (14%N, 10); (15%N, 14)].
Proof.
  intros H.
  assert (Hlt : (road_class < 16)%N) by (apply getPriority_defined; eauto).
  unfold getPriority in H.
  assert (Hn : road_class = N.of_nat (N.to_nat road_class))
    by (now rewrite N2Nat.id).
  assert (Hb : (N.to_nat road_class < 16)%nat) by lia.
  revert H Hn. generalize (N.to_nat road_class) as n. clear Hlt. intros n.
  intros H ->.
  do 16 (destruct n as [| n];
         [injection H as <-; simpl; tauto |]).
  simpl in H. discriminate H.
Qed.

(** X20.  [canBeSeenAsFork] treats its two arguments alike, it has a result
    exactly for the 16 classes of the priority table, and every one of
    these classes can be seen as a fork with itself. *)
Theorem canBeSeenAsFork_sym_refl (first second : FunctionalRoadClass) :
  canBeSeenAsFork first second = canBeSeenAsFork second first
  /\ (is_Some (canBeSeenAsFork first second)
      <-> (first < 16)%N /\ (second < 16)%N)
  /\ ((first < 16)%N -> canBeSeenAsFork first first = Some true).
Proof.
  unfold canBeSeenAsFork. split; [| split].
  - destruct (getPriority first) as [p |], (getPriority second) as [q |];
      simpl; try reflexivity.
    f_equal. apply eq_true_iff_eq. rewrite !Z.leb_le. lia.
  - rewrite <- !getPriority_defined.
    destruct (getPriority first) as [p |], (getPriority second) as [q |];
      simpl; split; intros H; eauto;
      try (destruct H as [? H]; discriminate H);
      destruct H as [[? H1] [? H2]]; discriminate.
  - intros H. apply getPriority_defined in H as [p ->]. simpl.
    f_equal. apply Z.leb_le. lia.
Qed.

Lemma canBeSeenAsFork_sym_refl_witness : canBeSeenAsFork 3%N 3%N = Some true.
Proof.
  apply (proj2 (proj2 (canBeSeenAsFork_sym_refl 3%N 3%N))). reflexivity.
Defined.

(** X21.  A class whose priority is below 10 or equal to 14 can be seen as
    a fork only with itself: these priorities are at least two apart from
    every other entry of the table.  The relation is not transitive: class
    11 forks with class 0 and with class 13, which do not fork with each
    other. *)
Theorem canBeSeenAsFork_graded_classes
    (first second : FunctionalRoadClass) (p : Z) :
  (getPriority first = Some p ->
   p < 10 \/ p = 14 ->
   canBeSeenAsFork first second = Some true ->
   first = second)
  /\ canBeSeenAsFork 0%N 11%N = Some true
  /\ canBeSeenAsFork 11%N 13%N = Some true
  /\ canBeSeenAsFork 0%N 13%N = Some false.
Proof.
  split; [| repeat split].
  intros Hp Hgraded Hfork.
  unfold canBeSeenAsFork in Hfork. rewrite Hp in Hfork. simpl in Hfork.
  destruct (getPriority second) as [q |] eqn:Hq; [| discriminate Hfork].
  simpl in Hfork. injection Hfork as Hfork. apply Z.leb_le in Hfork.
  apply getPriority_cases in Hp, Hq. simpl in Hp, Hq.
  repeat (destruct Hp as [Hp | Hp]; [injection Hp as <- <- |]);
    try contradiction;
    repeat (destruct Hq as [Hq | Hq]; [injection Hq as <- <- |]);
    try contradiction; try reflexivity; exfalso; lia.
Qed.

Lemma canBeSeenAsFork_graded_classes_witness :
  canBeSeenAsFork 1%N 1%N = Some true /\ 1%N = 1%N.
Proof.
  split; [reflexivity |].
  apply (proj1 (canBeSeenAsFork_graded_classes 1%N 1%N 0)
           eq_refl ltac:(left; lia) eq_refl).
Defined.

(** ** More on name changes *)

Lemma index_char_cons_ne (x c : ascii) (s : string) :
  x <> c ->
  String.index 0 (String x EmptyString) (String c s)
  = S <$> String.index 0 (String x EmptyString) s.
Proof.
  intros Hne. cbn [String.index String.prefix].
  destruct (Ascii.ascii_dec x c) as [E | _]; [contradiction |].
  now destruct (String.index 0 (String x EmptyString) s).
Qed.

Lemma index_char_cons_eq (x : ascii) (s : string) :
  String.index 0 (String x EmptyString) (String x s) = Some 0%nat.
Proof.
  cbn [String.index String.prefix].
  destruct (Ascii.ascii_dec x x) as [_ | E]; [| contradiction].
  now destruct s.
Qed.

Lemma index_char_None_cons (x c : ascii) (s : string) :
  String.index 0 (String x EmptyString) (String c s) = None ->
  x <> c /\ String.index 0 (String x EmptyString) s = None.
Proof.
  intros H. destruct (Ascii.ascii_dec x c) as [-> | Hne].
  - rewrite index_char_cons_eq in H. discriminate H.
  - split; [exact Hne |]. rewrite (index_char_cons_ne _ _ _ Hne) in H.
    now destruct (String.index 0 (String x EmptyString) s).
Qed.

(** The search for a character skips a prefix that does not contain it. *)
Lemma index_char_app (x : ascii) (s1 s2 : string) :
  String.index 0 (String x EmptyString) s1 = None ->
  String.index 0 (String x EmptyString) (s1 +:+ s2)
  = (fun n => (String.length s1 + n)%nat)
      <$> String.index 0 (String x EmptyString) s2.
Proof.
  induction s1 as [| c s1 IH]; intros H.
  - change (EmptyString +:+ s2) with s2.
    now destruct (String.index 0 (String x EmptyString) s2).
  - apply index_char_None_cons in H as [Hne H].
    change (String c s1 +:+ s2) with (String c (s1 +:+ s2)).
    rewrite (index_char_cons_ne _ _ _ Hne), (IH H).
    now destruct (String.index 0 (String x EmptyString) s2).
Qed.

Lemma substring_prefix (s1 s2 : string) :
  String.substring 0 (String.length s1) (s1 +:+ s2) = s1.
Proof.
  induction s1 as [| c s1 IH]; simpl.
  - now destruct s2.
  - now rewrite IH.
Qed.

Lemma substring_skip (s1 s2 : string) (k n : nat) :
  String.substring (String.length s1 + k) n (s1 +:+ s2)
  = String.substring k n s2.
Proof. induction s1 as [| c s1 IH]; simpl; [reflexivity | exact IH]. Qed.

Lemma length_app (s1 s2 : string) :
  String.length (s1 +:+ s2) = (String.length s1 + String.length s2)%nat.
Proof. induction s1 as [| c s1 IH]; simpl; [reflexivity | now rewrite IH]. Qed.

(** Inside the string, [substr] is [String.substring]. *)
Lemma substr_in_range (s : string) (pos count : Z) :
  0 <= pos -> 0 <= count -> pos + count <= Z.of_nat (String.length s) ->
  substr s pos count
  = Some (String.substring (Z.to_nat pos) (Z.to_nat count) s).
Proof.
  intros Hp Hc Hle. unfold substr.
  assert (E : (Z.of_nat (String.length s) <? pos) = false)
    by (apply Z.ltb_ge; lia).
  rewrite E. now rewrite Z.min_l by lia.
Qed.

(** X22.  [split] reads back what the format "{name} ({ref})" holds: for a
    name without parentheses, one separating character that is not a
    parenthesis, and a reference without a closing parenthesis, it returns
    the name and the reference, whatever follows the closing parenthesis.
    The separating character need not be a space: it is dropped without
    being looked at. *)
Theorem split_reads_format (name ref rest : string) (separator : ascii) :
  find_first_of name "(" = npos ->
  find_first_of name ")" = npos ->
  separator <> "("%char -> separator <> ")"%char ->
  find_first_of ref ")" = npos ->
  Z.of_nat (String.length
              (name +:+ String separator (String "(" (ref +:+ String ")" rest))))
  < npos ->
  split (name +:+ String separator (String "(" (ref +:+ String ")" rest)))
  = Some (name, ref).
Proof.
  intros Hn1 Hn2 Hs1 Hs2 Hr Hlen.
  set (full := name +:+ String separator (String "(" (ref +:+ String ")" rest)))
    in *.
  assert (Hsize : String.length full
                  = (String.length name + (2 + (String.length ref
                                                + S (String.length rest))))%nat).
  { unfold full. rewrite length_app. simpl. rewrite length_app. simpl. lia. }
  assert (Hnone : forall (s : string) (x : ascii),
             Z.of_nat (String.length s) < npos ->
             find_first_of s x = npos ->
             String.index 0 (String x EmptyString) s = None).
  { intros s x Hs H. unfold find_first_of, find in H.
    destruct (String.index 0 (String x EmptyString) s) as [n |] eqn:E;
      [| reflexivity].
    apply index_bound in E. simpl in E. lia. }
  assert (Hname : Z.of_nat (String.length name) < npos) by lia.
  assert (Href : Z.of_nat (String.length ref) < npos) by lia.
  assert (Hbegin : find_first_of full "(" = Z.of_nat (String.length name) + 1).
  { unfold find_first_of, find, full.
    rewrite (index_char_app _ _ _ (Hnone _ _ Hname Hn1)).
    rewrite (index_char_cons_ne "(" separator); [| congruence].
    rewrite index_char_cons_eq. simpl. lia. }
  assert (Hend : find_first_of full ")"
                 = Z.of_nat (String.length name) + 2
                   + Z.of_nat (String.length ref)).
  { unfold find_first_of, find, full.
    rewrite (index_char_app _ _ _ (Hnone _ _ Hname Hn2)).
    rewrite (index_char_cons_ne ")" separator); [| congruence].
    rewrite (index_char_cons_ne ")" "("); [| discriminate].
    rewrite (index_char_app _ _ _ (Hnone _ _ Href Hr)).
    rewrite index_char_cons_eq. simpl. lia. }
  assert (W1 : wrap64 (Z.of_nat (String.length name) + 1 - 1)
               = Z.of_nat (String.length name)).
  { unfold wrap64. rewrite Z.mod_small; unfold npos in *; lia. }
  assert (W2 : wrap64 (Z.of_nat (String.length name) + 1 + 1)
               = Z.of_nat (String.length name + 2)).
  { unfold wrap64. rewrite Z.mod_small; unfold npos in *; lia. }
  assert (W3 : wrap64 (wrap64 (Z.of_nat (String.length name) + 2
                               + Z.of_nat (String.length ref)
                               - (Z.of_nat (String.length name) + 1)) - 1)
               = Z.of_nat (String.length ref)).
  { assert (W : wrap64 (Z.of_nat (String.length name) + 2
                        + Z.of_nat (String.length ref)
                        - (Z.of_nat (String.length name) + 1))
                = Z.of_nat (String.length ref) + 1).
    { unfold wrap64. rewrite Z.mod_small; unfold npos in *; lia. }
    rewrite W. unfold wrap64. rewrite Z.mod_small; unfold npos in *; lia. }
  unfold split. fold full. rewrite Hbegin, Hend.
  assert (E1 : (Z.of_nat (String.length name) + 1 =? npos) = false)
    by (apply Z.eqb_neq; lia).
  assert (E2 : (Z.of_nat (String.length name) + 1 =? 0) = false)
    by (apply Z.eqb_neq; lia).
  rewrite E1, E2, W1, W2, W3. simpl negb. cbv iota.
  rewrite !substr_in_range by lia. simpl.
  rewrite !Nat2Z.id.
  unfold full. rewrite substring_prefix, substring_skip. simpl.
  now rewrite substring_prefix.
Qed.

Lemma split_reads_format_witness :
  split ("Main St" +:+ String " " (String "(" ("A1" +:+ String ")" "")))
  = Some ("Main St", "A1").
Proof.
  apply (split_reads_format "Main St" "A1" "" " ");
    try reflexivity; discriminate.
Defined.

(** The separator must not be a closing parenthesis: the search for ")"
    then stops before the reference begins, the count wraps around, and
    the reference runs to the end of the string. *)
Lemma split_separator_closing_parenthesis :
  split "ab)(cd)" = Some ("ab", "cd)").
Proof. vm_compute. reflexivity. Qed.

Lemma append_empty_r (s : string) : s +:+ EmptyString = s.
Proof.
  induction s as [| c s IH]; [reflexivity |].
  change (String c s +:+ EmptyString) with (String c (s +:+ EmptyString)).
  now f_equal.
Qed.

(** X23.  A reference whose parenthesis is never closed runs to the end of
    the string: the length computed from [npos] wraps around to a huge
    count, which [substr] cuts down to what is left. *)
Theorem split_unclosed_reference (name ref : string) (separator : ascii) :
  find_first_of name "(" = npos ->
  find_first_of name ")" = npos ->
  separator <> "("%char -> separator <> ")"%char ->
  find_first_of ref ")" = npos ->
  Z.of_nat (String.length (name +:+ String separator (String "(" ref))) < npos ->
  split (name +:+ String separator (String "(" ref)) = Some (name, ref).
Proof.
  intros Hn1 Hn2 Hs1 Hs2 Hr Hlen.
  set (full := name +:+ String separator (String "(" ref)) in *.
  assert (Hsize : String.length full
                  = (String.length name + (2 + String.length ref))%nat).
  { unfold full. rewrite length_app. simpl. lia. }
  assert (Hnone : forall (s : string) (x : ascii),
             Z.of_nat (String.length s) < npos ->
             find_first_of s x = npos ->
             String.index 0 (String x EmptyString) s = None).
  { intros s x Hs H. unfold find_first_of, find in H.
    destruct (String.index 0 (String x EmptyString) s) as [n |] eqn:E;
      [| reflexivity].
    apply index_bound in E. simpl in E. lia. }
  assert (Hname : Z.of_nat (String.length name) < npos) by lia.
  assert (Href : Z.of_nat (String.length ref) < npos) by lia.
  assert (Hbegin : find_first_of full "(" = Z.of_nat (String.length name) + 1).
  { unfold find_first_of, find, full.
    rewrite (index_char_app _ _ _ (Hnone _ _ Hname Hn1)).
    rewrite (index_char_cons_ne "(" separator); [| congruence].
    rewrite index_char_cons_eq. simpl. lia. }
  assert (Hend : find_first_of full ")" = npos).
  { unfold find_first_of, find, full.
    rewrite (index_char_app _ _ _ (Hnone _ _ Hname Hn2)).
    rewrite (index_char_cons_ne ")" separator); [| congruence].
    rewrite (index_char_cons_ne ")" "("); [| discriminate].
    now rewrite (Hnone _ _ Href Hr). }
  assert (W1 : wrap64 (Z.of_nat (String.length name) + 1 - 1)
               = Z.of_nat (String.length name)).
  { unfold wrap64. rewrite Z.mod_small; unfold npos in *; lia. }
  assert (W2 : wrap64 (Z.of_nat (String.length name) + 1 + 1)
               = Z.of_nat (String.length name + 2)).
  { unfold wrap64. rewrite Z.mod_small; unfold npos in *; lia. }
  assert (W3 : wrap64 (wrap64 (npos - (Z.of_nat (String.length name) + 1)) - 1)
               = npos - Z.of_nat (String.length name) - 2).
  { assert (W : wrap64 (npos - (Z.of_nat (String.length name) + 1))
                = npos - Z.of_nat (String.length name) - 1).
    { unfold wrap64. rewrite Z.mod_small; unfold npos in *; lia. }
    rewrite W. unfold wrap64. rewrite Z.mod_small; unfold npos in *; lia. }
  unfold split. fold full. rewrite Hbegin, Hend.
  assert (E1 : (Z.of_nat (String.length name) + 1 =? npos) = false)
    by (apply Z.eqb_neq; lia).
  assert (E2 : (Z.of_nat (String.length name) + 1 =? 0) = false)
    by (apply Z.eqb_neq; lia).
  rewrite E1, E2, W1, W2, W3. simpl negb. cbv iota.
  rewrite (substr_in_range full 0) by lia. simpl.
  unfold substr.
  assert (E3 : (Z.of_nat (String.length full)
                <? Z.of_nat (String.length name + 2)) = false)
    by (apply Z.ltb_ge; lia).
  rewrite E3.
  rewrite Z.min_r by lia.
  replace (Z.to_nat (Z.of_nat (String.length full)
                     - Z.of_nat (String.length name + 2)))
    with (String.length ref) by lia.
  rewrite !Nat2Z.id.
  unfold full. rewrite substring_prefix, substring_skip. simpl.
  rewrite <- (append_empty_r ref) at 2.
  now rewrite substring_prefix.
Qed.

Lemma split_unclosed_reference_witness :
  split ("Main St" +:+ String " " (String "(" "A1")) = Some ("Main St", "A1").
Proof.
  apply (split_unclosed_reference "Main St" "A1" " ");
    try reflexivity; discriminate.
Defined.

(** X24.  [requiresNameAnnounced] has a result on every pair of strings a
    [std::string] can hold: neither of the two [substr] calls of [split]
    ever starts past the end of the string. *)
Theorem requiresNameAnnounced_in_range (from to : string) :
  Z.of_nat (String.length from) < npos ->
  Z.of_nat (String.length to) < npos ->
  is_Some (split from) /\ is_Some (split to)
  /\ is_Some (requiresNameAnnounced from to).
Proof.
  intros Hf Ht.
  split; [now apply split_total |]. split; [now apply split_total |].
  unfold requiresNameAnnounced.
  destruct (split_total from Hf) as [[from_name from_ref] ->].
  destruct (split_total to Ht) as [[to_name to_ref] ->].
  simpl. eauto.
Qed.

Lemma requiresNameAnnounced_in_range_witness :
  is_Some (requiresNameAnnounced ")(" "a(b").
Proof.
  apply (proj2 (proj2 (requiresNameAnnounced_in_range ")(" "a(b"
                         ltac:(reflexivity) ltac:(reflexivity)))).
Defined.

(** X25.  A change from a string to the very same string is never
    announced, whatever the string holds. *)
Theorem requiresNameAnnounced_unchanged (name : string) :
  Z.of_nat (String.length name) < npos ->
  requiresNameAnnounced name name = Some false.
Proof.
  intros Hs. unfold requiresNameAnnounced.
  destruct (split_total name Hs) as [[n r] ->]. simpl.
  rewrite bool_decide_eq_true_2 by reflexivity.
  rewrite find_self. simpl.
  now rewrite !orb_true_r.
Qed.

Lemma requiresNameAnnounced_unchanged_witness :
  requiresNameAnnounced "Oak St (B2" "Oak St (B2" = Some false.
Proof.
  apply (requiresNameAnnounced_unchanged "Oak St (B2"). reflexivity.
Defined.

(** X26.  The heuristic is not symmetric.  Losing the name is never
    announced, whatever the references are; gaining a name, on a road that
    had neither name nor reference, always is. *)
Theorem requiresNameAnnounced_name_lost_or_gained
    (road name ref : string) :
  split road = Some (name, ref) ->
  name <> EmptyString ->
  requiresNameAnnounced road EmptyString = Some false
  /\ requiresNameAnnounced EmptyString road = Some true.
Proof.
  intros Hsplit Hname. unfold requiresNameAnnounced.
  rewrite Hsplit. simpl. unfold empty.
  rewrite (bool_decide_eq_false_2 (name = EmptyString) Hname).
  rewrite (bool_decide_eq_true_2 (EmptyString = EmptyString) eq_refl).
  assert (E : bool_decide (EmptyString = name) = false).
  { apply bool_decide_eq_false_2. congruence. }
  rewrite E. simpl.
  split; [now destruct (bool_decide (ref = EmptyString)) | reflexivity].
Qed.

Lemma requiresNameAnnounced_name_lost_or_gained_witness :
  requiresNameAnnounced "Main St (A1)" "" = Some false
  /\ requiresNameAnnounced "" "Main St (A1)" = Some true.
Proof.
  apply (requiresNameAnnounced_name_lost_or_gained "Main St (A1)" "Main St" "A1");
    [reflexivity | discriminate].
Defined.

(** ** More on the representative coordinate *)

Section CompressedEdges.

Variable haversineDistance : Coordinate.t -> Coordinate.t -> Q.
Variable interpolateLinear : Q -> Coordinate.t -> Coordinate.t -> Coordinate.t.

(** X28.  Traversing an edge in reverse is traversing it forward with the
    end nodes exchanged and the stored geometry read backwards, with or
    without a stored geometry. *)
Theorem getRepresentativeCoordinate_reverse
    (from_node to_node : NodeID) (via_edge_id : EdgeID)
    (compressed_geometries : gmap N (list CompressedEdge.t))
    (query_nodes : list QueryNode.t) :
  getRepresentativeCoordinate haversineDistance interpolateLinear
    from_node to_node via_edge_id true compressed_geometries query_nodes
  = getRepresentativeCoordinate haversineDistance interpolateLinear
      to_node from_node via_edge_id false
      ((fun geometry => rev geometry) <$> compressed_geometries)
      query_nodes.
Proof.
  unfold getRepresentativeCoordinate, CompressedEdgeContainer.HasEntryForID,
    CompressedEdgeContainer.GetBucketReference, base_node_id, final_node.
  rewrite lookup_fmap.
  destruct (compressed_geometries !! via_edge_id) as [geometry |];
    reflexivity.
Qed.

Hypothesis haversineDistance_nonneg :
  forall a b, (0 <= haversineDistance a b)%Q.


End CompressedEdges.

